(** * pastebin_scraper: the matching engine, the poll loop and the delivery
      workers of [main.go], embedded in Rocq.

    Layout
    - [GoText]      Go strings as sequences of runes, and the functions of
                    package [strings] that [main.go] calls.
    - [Regexp]      the fragment of package [regexp] that the keyword pattern
                    lives in: [QuoteMeta], the parser, a backtracking matcher
                    with leftmost-first semantics, [FindStringSubmatch].
    - [Matching]    [checkExceptions], [checkKeywords] and the loop of [main]
                    that fills [keywordsRegex].
    - [PollLoop]    one cycle of the endless loop of [main].
    - [Delivery]    the two worker goroutines, the signal goroutine and the
                    shutdown sequence.

    [debugOutput] only prints, and only under the debug flag; it is left
    out throughout. *)

From Stdlib Require Import NArith ZArith List Ascii String Lia Bool.
From stdpp Require Import base option list gmap.

Local Open Scope N_scope.

(* ===================================================================== *)
(** ** Go text *)
(* ===================================================================== *)

Module GoText.

(** A rune is a Unicode code point.  Keywords and exceptions come out of
    [encoding/json], which only produces valid UTF-8, and [regexp] reads its
    input rune by rune, so text is modelled at the level of runes. *)
Abbreviation rune := N (only parsing).
Abbreviation gostring := (list N) (only parsing).

Definition runes (s : string) : gostring :=
  map N_of_ascii (list_ascii_of_string s).

Definition NL : rune := 10.

Definition inRange (lo hi r : rune) : bool := (lo <=? r) && (r <=? hi).

(** [unicode.IsSpace]: the White_Space property. *)
Definition isSpace (r : rune) : bool :=
  inRange 9 13 r || (r =? 32) || (r =? 133) || (r =? 160) || (r =? 5760)
  || inRange 8192 8202 r || (r =? 8232) || (r =? 8233) || (r =? 8239)
  || (r =? 8287) || (r =? 12288).

Fixpoint trimLeft (s : gostring) : gostring :=
  match s with
  | c :: s' => if isSpace c then trimLeft s' else s
  | [] => []
  end.

Definition trimRight (s : gostring) : gostring := rev (trimLeft (rev s)).

(** [strings.TrimSpace] *)
Definition TrimSpace (s : gostring) : gostring := trimRight (trimLeft s).

Fixpoint HasPrefix (s p : gostring) {struct p} : bool :=
  match p, s with
  | [], _ => true
  | x :: p', c :: s' => (x =? c) && HasPrefix s' p'
  | _ :: _, [] => false
  end.

(** [strings.Contains] *)
Fixpoint Contains (s sub : gostring) : bool :=
  HasPrefix s sub ||
  match s with
  | _ :: s' => Contains s' sub
  | [] => false
  end.

(** [strings.Split(s, "\n")]: never empty, the pieces carry no line feed. *)
Fixpoint splitLines (s : gostring) : list gostring :=
  match s with
  | [] => [[]]
  | c :: s' =>
      if c =? NL then [] :: splitLines s'
      else match splitLines s' with
           | l :: ls => (c :: l) :: ls
           | [] => [[c]]
           end
  end.

(** No line feed in the text. *)
Definition noNL (s : gostring) : Prop := Forall (λ c, c ≠ NL) s.

End GoText.
Import GoText.

(* ===================================================================== *)
(** ** Package regexp, as far as the keyword pattern needs it *)
(* ===================================================================== *)

Module Regexp.

(** The simple case folding of Unicode ([unicode.SimpleFold]) is a table of
    the Go runtime; it is taken as a parameter.  [foldTable c r] says that
    [c] and [r] differ at most in case. *)
Class CaseFolding := { foldTable : rune → rune → bool }.

(** Whether the literal [c] of a case-insensitive pattern accepts [r].  The
    line feed has no case variants, so the table is not asked about it. *)
Definition foldEq `{CaseFolding} (c r : rune) : bool :=
  if (c =? NL) || (r =? NL) then c =? r else foldTable c r.

Definition toLowerASCII (r : rune) : rune :=
  if inRange 65 90 r then r + 32 else r.

(** The orbits of the table that hold an ASCII rune: the two cases of a
    Latin letter, and with them the long s (U+017F) for [s] and the Kelvin
    sign (U+212A) for [k]. *)
Definition foldKey (r : rune) : rune :=
  if r =? 383 then 115
  else if r =? 8490 then 107
  else toLowerASCII r.

(** The table on the orbits that hold an ASCII rune; a rune of another
    orbit is taken to fold to itself only.  For a keyword in ASCII this is
    the full table, whatever the body. *)
#[export] Instance asciiFold : CaseFolding :=
  {| foldTable c r := foldKey c =? foldKey r |}.

(** [\w] of RE2 syntax: ASCII letters, digits and the underscore. *)
Definition isWordChar (r : rune) : bool :=
  inRange 48 57 r || inRange 65 90 r || inRange 97 122 r || (r =? 95).

Definition isalnum (r : rune) : bool :=
  inRange 48 57 r || inRange 65 90 r || inRange 97 122 r.

(** The characters [regexp.QuoteMeta] escapes: [\.+*?()|[]{}^$]. *)
Definition special (r : rune) : bool :=
  existsb (N.eqb r) [92; 46; 43; 42; 63; 40; 41; 124; 91; 93; 123; 125; 94; 36].

Fixpoint QuoteMeta (s : gostring) : gostring :=
  match s with
  | [] => []
  | c :: s' => if special c then 92 :: c :: QuoteMeta s' else c :: QuoteMeta s'
  end.

(** *** Syntax trees *)

Inductive charClass :=
  | CLit (fold : bool) (c : rune)
  | CAnyNotNL
  | CAny.

Inductive regex :=
  | REmpty
  | RChar (cc : charClass)
  | RStar (cc : charClass)
  | RBeginLine
  | REndLine
  | RBeginText
  | REndText
  | RWordBoundary
  | RCapture (n : nat) (r : regex)
  | RConcat (r1 r2 : regex).

Definition concat (items : list regex) : regex := foldr RConcat REmpty items.

(** *** The parser ([regexp/syntax.Parse] with the [Perl] flags)

    One rune is read per step.  Syntax outside the fragment above (alternation,
    classes, counted and lazy repetition, repetition of a group, named and
    non-capturing groups, the other escapes) is answered with [None], which
    therefore stands for "rejected or not modelled".  Of the limits of the
    parser the one on the number of runes is the one a pattern of this
    fragment can reach; it is kept. *)

Record pflags := { fFold : bool; fMulti : bool; fDotNL : bool }.

Inductive pmode :=
  | PNormal
  | PEscape
  | PGroupOpen
  | PFlags (neg saw : bool) (fl : pflags).

Record pstate := {
  p_mode : pmode;
  p_flags : pflags;
  p_ncap : nat;
  p_cur : list regex;                          (* newest first *)
  p_stack : list (list regex * nat * pflags);  (* the open groups *)
  p_numRunes : N                               (* runes held by the nodes *)
}.

(** [maxRunes]: the parser gives up with "expression too large" when the
    nodes of the tree hold more runes than 128 MB of [rune]s. *)
Definition maxRunes : N := 33554432.

Definition pinit : pstate :=
  {| p_mode := PNormal;
     p_flags := {| fFold := false; fMulti := false; fDotNL := false |};
     p_ncap := 0; p_cur := []; p_stack := []; p_numRunes := 0 |}.

Definition push (st : pstate) (r : regex) : pstate :=
  {| p_mode := PNormal; p_flags := p_flags st; p_ncap := p_ncap st;
     p_cur := r :: p_cur st; p_stack := p_stack st;
     p_numRunes := p_numRunes st |}.

(** A literal adds its rune to the count, and the limit is checked. *)
Definition pushLiteral (st : pstate) (c : rune) : option pstate :=
  if maxRunes <? p_numRunes st + 1 then None
  else Some {| p_mode := PNormal; p_flags := p_flags st; p_ncap := p_ncap st;
               p_cur := RChar (CLit (fFold (p_flags st)) c) :: p_cur st;
               p_stack := p_stack st;
               p_numRunes := p_numRunes st + 1 |}.

Definition setMode (st : pstate) (m : pmode) : pstate :=
  {| p_mode := m; p_flags := p_flags st; p_ncap := p_ncap st;
     p_cur := p_cur st; p_stack := p_stack st;
     p_numRunes := p_numRunes st |}.

Definition normalStep (st : pstate) (c : rune) : option pstate :=
  if c =? 40 (* ( *) then Some (setMode st PGroupOpen)
  else if c =? 41 (* ) *) then
    match p_stack st with
    | [] => None
    | (items, n, fl) :: stk =>
        Some {| p_mode := PNormal; p_flags := fl; p_ncap := p_ncap st;
                p_cur := RCapture n (concat (rev (p_cur st))) :: items;
                p_stack := stk; p_numRunes := p_numRunes st |}
    end
  else if c =? 94 (* ^ *) then
    Some (push st (if fMulti (p_flags st) then RBeginLine else RBeginText))
  else if c =? 36 (* $ *) then
    Some (push st (if fMulti (p_flags st) then REndLine else REndText))
  else if c =? 46 (* . *) then
    Some (push st (RChar (if fDotNL (p_flags st) then CAny else CAnyNotNL)))
  else if c =? 42 (* * *) then
    match p_cur st with
    | RChar cc :: rest =>
        Some {| p_mode := PNormal; p_flags := p_flags st; p_ncap := p_ncap st;
                p_cur := RStar cc :: rest; p_stack := p_stack st;
                p_numRunes := p_numRunes st |}
    | _ => None
    end
  else if c =? 92 (* \ *) then Some (setMode st PEscape)
  else if (c =? 124) || (c =? 91) || (c =? 43) || (c =? 63) || (c =? 123)
    (* | [ + ? { *) then None
  else pushLiteral st c.

Definition setFlag (neg : bool) (fl : pflags) (c : rune) : option pflags :=
  if c =? 105 (* i *) then
    Some {| fFold := negb neg; fMulti := fMulti fl; fDotNL := fDotNL fl |}
  else if c =? 109 (* m *) then
    Some {| fFold := fFold fl; fMulti := negb neg; fDotNL := fDotNL fl |}
  else if c =? 115 (* s *) then
    Some {| fFold := fFold fl; fMulti := fMulti fl; fDotNL := negb neg |}
  else None.

Definition parseStep (st : pstate) (c : rune) : option pstate :=
  match p_mode st with
  | PNormal => normalStep st c
  | PEscape =>
      if c =? 98 (* b *) then Some (push st RWordBoundary)
      else if (c <? 128) && negb (isalnum c)
      then pushLiteral st c
      else None
  | PGroupOpen =>
      if c =? 63 (* ? *) then Some (setMode st (PFlags false false (p_flags st)))
      else
        normalStep
          {| p_mode := PNormal; p_flags := p_flags st; p_ncap := S (p_ncap st);
             p_cur := [];
             p_stack := (p_cur st, S (p_ncap st), p_flags st) :: p_stack st;
             p_numRunes := p_numRunes st |}
          c
  | PFlags neg saw fl =>
      if c =? 41 (* ) *) then
        if neg && negb saw then None
        else Some {| p_mode := PNormal; p_flags := fl; p_ncap := p_ncap st;
                     p_cur := p_cur st; p_stack := p_stack st;
                     p_numRunes := p_numRunes st |}
      else if c =? 45 (* - *) then
        if neg then None else Some (setMode st (PFlags true false fl))
      else
        fl' ← setFlag neg fl c;
        Some (setMode st (PFlags neg true fl'))
  end.

Fixpoint parseRun (st : pstate) (s : gostring) : option pstate :=
  match s with
  | [] => Some st
  | c :: s' => st' ← parseStep st c; parseRun st' s'
  end.

Definition parseFinish (st : pstate) : option regex :=
  match p_mode st, p_stack st with
  | PNormal, [] => Some (concat (rev (p_cur st)))
  | _, _ => None
  end.

(** [regexp.Compile]; [None] is the error, a pattern that is too large
    among them. *)
Definition Compile (expr : gostring) : option regex :=
  st ← parseRun pinit expr; parseFinish st.

(** *** The matcher

    A position in the text is the rune before it (if any) and the text that
    is left.  [matchRe] is a backtracking matcher in continuation-passing
    style; the first way to match that it finds is the one [regexp] reports
    (leftmost-first semantics). *)

Section Matcher.
Context `{CaseFolding}.

Definition classMatches (cc : charClass) (r : rune) : bool :=
  match cc with
  | CLit true c => foldEq c r
  | CLit false c => c =? r
  | CAnyNotNL => negb (r =? NL)
  | CAny => true
  end.

Definition isWordAt (o : option rune) : bool :=
  match o with Some r => isWordChar r | None => false end.

Definition atWordBoundary (prev : option rune) (s : gostring) : bool :=
  xorb (isWordAt prev) (isWordAt (head s)).

Definition atBeginLine (prev : option rune) : bool :=
  match prev with None => true | Some r => r =? NL end.

Definition atEndLine (s : gostring) : bool :=
  match s with [] => true | r :: _ => r =? NL end.

Abbreviation captures := (gmap nat (list N)) (only parsing).

(** Greedy repetition of a one-rune matcher: the longest run is tried first. *)
Fixpoint matchStar (cc : charClass) (prev : option rune) (s : gostring)
    (k : option rune → gostring → option captures) : option captures :=
  match s with
  | c :: s' =>
      if classMatches cc c then
        match matchStar cc (Some c) s' k with
        | Some r => Some r
        | None => k prev s
        end
      else k prev s
  | [] => k prev s
  end.

Fixpoint matchRe (r : regex) (prev : option rune) (s : gostring)
    (cs : captures)
    (k : option rune → gostring → captures → option captures)
    : option captures :=
  match r with
  | REmpty => k prev s cs
  | RChar cc =>
      match s with
      | c :: s' => if classMatches cc c then k (Some c) s' cs else None
      | [] => None
      end
  | RStar cc => matchStar cc prev s (λ p t, k p t cs)
  | RBeginLine => if atBeginLine prev then k prev s cs else None
  | REndLine => if atEndLine s then k prev s cs else None
  | RBeginText => match prev with None => k prev s cs | Some _ => None end
  | REndText => match s with [] => k prev s cs | _ :: _ => None end
  | RWordBoundary => if atWordBoundary prev s then k prev s cs else None
  | RCapture n r' =>
      matchRe r' prev s cs
        (λ p t cs', k p t (<[n := take (length s - length t) s]> cs'))
  | RConcat r1 r2 =>
      matchRe r1 prev s cs (λ p t cs', matchRe r2 p t cs' k)
  end.

Definition matchAt (re : regex) (prev : option rune) (s : gostring)
    : option captures :=
  matchRe re prev s ∅
    (λ _ t cs, Some (<[0%nat := take (length s - length t) s]> cs)).

(** The unanchored search: the leftmost position that matches wins. *)
Fixpoint searchFrom (re : regex) (prev : option rune) (s : gostring)
    : option captures :=
  match matchAt re prev s with
  | Some cs => Some cs
  | None =>
      match s with
      | [] => None
      | c :: s' => searchFrom re (Some c) s'
      end
  end.

Fixpoint numSubexp (r : regex) : nat :=
  match r with
  | RCapture n r' => Nat.max n (numSubexp r')
  | RConcat r1 r2 => Nat.max (numSubexp r1) (numSubexp r2)
  | _ => 0
  end.

(** [Regexp.FindStringSubmatch]: [None] is the nil slice; otherwise the
    slice holds the whole match and one string per group, the empty string for
    a group that took no part. *)
Definition FindStringSubmatch (re : regex) (body : gostring)
    : option (list gostring) :=
  cs ← searchFrom re None body;
  Some (map (λ i, default [] (cs !! i)) (seq 0 (S (numSubexp re)))).

End Matcher.

End Regexp.
Import Regexp.

(* ===================================================================== *)
(** ** The matching engine of main.go *)
(* ===================================================================== *)

Module Matching.

(** The configuration document.  Its type is declared outside [main.go]; the
    fields are the ones [main] reads. *)
Record keywordType := { Keyword : gostring; Exceptions : list gostring }.
Record configuration := { Keywords : list keywordType; Mailonerror : bool }.

(** [regexp] is a pointer in the source, hence the [option]. *)
Record keywordRegexType := {
  regexp : option regex;
  exceptions : list gostring
}.

(** [checkExceptions] (the debug line has no effect on the result). *)
Fixpoint checkExceptions (s : gostring) (exceptions : list gostring) : bool :=
  match exceptions with
  | [] => false
  | x :: rest => if Contains s x then true else checkExceptions s rest
  end.

(** The pattern [main] formats for a keyword: the flags [i] and [m], then
    one group between the line anchors that holds any text, a word boundary,
    the quoted keyword and any text. *)
Definition keywordPattern (keyword : gostring) : gostring :=
  runes "(?im)^(.*\b" ++ QuoteMeta keyword ++ runes ".*)$".

(** [regexp.MustCompile]: [None] is the panic. *)
Definition MustCompile (expr : gostring) : option regex := Compile expr.

(** The keyword is within the size the parser takes. *)
Definition fits (keyword : gostring) : bool :=
  N.of_nat (length keyword) <=? maxRunes.

Definition allFit (ks : list keywordType) : bool :=
  forallb (λ k, fits (Keyword k)) ks.

(** The loop of [main] over [config.Keywords] that fills [keywordsRegex]. *)
Fixpoint compileKeywords (ks : list keywordType)
    (keywordsRegex : gmap (list N) keywordRegexType)
    : option (gmap (list N) keywordRegexType) :=
  match ks with
  | [] => Some keywordsRegex
  | k :: ks' =>
      re ← MustCompile (keywordPattern (Keyword k));
      compileKeywords ks'
        (<[Keyword k := {| regexp := Some re; exceptions := Exceptions k |}]>
           keywordsRegex)
  end.

(** What section 3 of the design says the pattern of a keyword is: between
    the anchors of a line, one group with any text, a word boundary, the
    keyword rune by rune as case-insensitive literals, and any text. *)
Definition lineWithKeyword (keyword : gostring) : regex :=
  RConcat RBeginLine
    (RConcat
       (RCapture 1
          (concat ([RStar CAnyNotNL; RWordBoundary]
                   ++ map (λ c, RChar (CLit true c)) keyword
                   ++ [RStar CAnyNotNL])))
       (RConcat REndLine REmpty)).

Section Engine.
Context `{CaseFolding}.

(** [foldPrefix k s]: the runes of [k], read as case-insensitive literals,
    accept a prefix of [s]. *)
Fixpoint foldPrefix (k s : gostring) {struct k} : bool :=
  match k, s with
  | [], _ => true
  | c :: k', r :: s' => foldEq c r && foldPrefix k' s'
  | _ :: _, [] => false
  end.

(** The keyword stands at this place of the line, with a word boundary in
    front of it. *)
Definition delimitedAt (k : gostring) (prev : option rune) (s : gostring) : bool :=
  atWordBoundary prev s && foldPrefix k s.

Fixpoint delimitedFrom (k : gostring) (prev : option rune) (s : gostring) : bool :=
  delimitedAt k prev s ||
  match s with
  | c :: s' => delimitedFrom k (Some c) s'
  | [] => false
  end.

(** The line contains the keyword as a delimited substring. *)
Definition hasKeyword (k line : gostring) : bool := delimitedFrom k None line.

(** The body of the [range] loop of [checkKeywords] for one entry.  [None]
    is the run-time panic of [s[1]] on a slice that is too short. *)
Definition checkKeyword (body : gostring)
    (acc : bool * gmap (list N) (list N))
    (kv : list N * keywordRegexType)
    : option (bool * gmap (list N) (list N)) :=
  let '(status, found) := acc in
  let '(k, v) := kv in
  match regexp v with
  | None => Some acc
  | Some re =>
      match FindStringSubmatch re body with
      | None => Some acc
      | Some s =>
          s1 ← s !! 1%nat;
          let match_ := TrimSpace s1 in
          if negb (checkExceptions match_ (exceptions v))
          then Some (true, <[k := match_]> found)
          else Some acc
      end
  end.

(** The loop itself, over the entries in the order the runtime hands them
    out. *)
Fixpoint rangeKeywords (entries : list (list N * keywordRegexType))
    (body : gostring) (acc : bool * gmap (list N) (list N))
    : option (bool * gmap (list N) (list N)) :=
  match entries with
  | [] => Some acc
  | kv :: rest => acc' ← checkKeyword body acc kv; rangeKeywords rest body acc'
  end.

(** [checkKeywords].  Go leaves the iteration order of a map unspecified;
    the properties are proved for every order of the entries. *)
Definition checkKeywords (keywordsRegex : gmap (list N) keywordRegexType)
    (body : gostring) : option (bool * gmap (list N) (list N)) :=
  rangeKeywords (map_to_list keywordsRegex) body (false, ∅).

(** Where the search goes on when a line gave nothing. *)
Definition afterLine (kw rest : gostring) : option (gmap nat (list N)) :=
  match rest with
  | [] => None
  | _ :: body => searchFrom (lineWithKeyword kw) (Some NL) body
  end.

(** The line [checkKeywords] records for an entry, if it records one. *)
Definition keywordHit (body : gostring) (v : keywordRegexType) : option gostring :=
  re ← regexp v;
  s ← FindStringSubmatch re body;
  s1 ← s !! 1%nat;
  if checkExceptions (TrimSpace s1) (exceptions v) then None
  else Some (TrimSpace s1).

Definition isHit (body : gostring) (kv : list N * keywordRegexType) : bool :=
  match keywordHit body kv.2 with Some _ => true | None => false end.

(** The rune in front of a place, given the text [pre] read so far. *)
Definition before (p : option rune) (pre : gostring) : option rune :=
  match last pre with Some c => Some c | None => p end.

End Engine.

(** Every entry holds the pattern of its own key, as after the loop of
    [main]. *)
Definition compiled (m : gmap (list N) keywordRegexType) : Prop :=
  ∀ k v, m !! k = Some v → regexp v = Some (lineWithKeyword k).

(** What the search reports for a line. *)
Definition lineCaptures (L : gostring) : gmap nat (list N) :=
  <[0%nat := L]> (<[1%nat := L]> ∅).

(** The configuration of the scenario of section 8. *)
Definition passwordKeyword : keywordType :=
  {| Keyword := runes "password"; Exceptions := [runes "testpassword"] |}.

End Matching.
Import Matching.

(* ===================================================================== *)
(** ** The poll loop of main *)
(* ===================================================================== *)

Module PollLoop.

Local Open Scope Z_scope.

(** Instants and durations are counted in nanoseconds. *)
Definition second : Z := 1000000000.
Definition minute : Z := 60 * second.

(** The globals of [main.go] that the loop touches.  [terminate] is written
    by another goroutine and is read through the environment below. *)
Record globals := {
  alredyChecked : gmap (list N) Z;
  lastCheck : Z
}.

Section Loop.

(** [paste] is declared outside [main.go]; the loop reads its [Key]. *)
Variable paste : Type.
Variable Key : paste → list N.

(** What the loop does to its surroundings, in order. *)
Inductive event :=
  | EvSleep (d : Z)             (* time.Sleep(d) *)
  | EvFetchPasteList            (* fetchPasteList(ctx) *)
  | EvFetch (p : paste)         (* p.fetch(ctx) *)
  | EvError (e : list N).       (* chanError <- e *)

(** The surroundings: the clock, the network and the flag [terminate] as
    the loop would read it. *)
Variable World : Type.
Variable now : World → Z.
Variable sleep : Z → World → World.
Variable terminate : World → bool.
Variable listEndpoint : World → (list paste + list N) * World.

(** [p.fetch(ctx)] is outside [main.go]; it may write [alredyChecked]. *)
Variable fetch : paste → globals → World → option (list N) * globals * World.

Record run := {
  gl : globals;
  world : World;
  trace : list event
}.

(** Modelled from the spec: [fetchPasteList] is not in [main.go].  Section
    4.4: it calls the upstream list endpoint once; a transport or decode
    failure is handed back as the error, together with an empty item set.
    [lastCheck], which [main] only reads, is stamped by the call; that gives
    the fixed interval between cycles of section 4.5. *)
Definition fetchPasteList (g : globals) (w : World)
    : list paste * option (list N) * globals * World :=
  let g' := {| alredyChecked := alredyChecked g; lastCheck := now w |} in
  match listEndpoint w with
  | (inl items, w') => (items, None, g', w')
  | (inr err, w') => ([], Some err, g', w')
  end.

Definition timeSleep (d : Z) (r : run) : run :=
  {| gl := gl r; world := sleep d (world r); trace := trace r ++ [EvSleep d] |}.

(** [chanError <- fmt.Errorf(prefix + "%v", err)] *)
Definition sendError (prefix : string) (err : list N) (r : run) : run :=
  {| gl := gl r; world := world r;
     trace := trace r ++ [EvError (runes prefix ++ err)] |}.

Definition reportIf (prefix : string) (err : option (list N)) (r : run) : run :=
  match err with
  | Some e => sendError prefix e r
  | None => r
  end.

(** What one item adds to the trace when it is fetched. *)
Definition fetchEvents (p : paste) (err : option (list N)) : list event :=
  EvFetch p ::
  match err with
  | Some e => [EvError (runes "fetch: " ++ e)]
  | None => []
  end ++ [EvSleep (1 * second)].

(** [for _, p := range pastes { ... }] *)
Fixpoint rangePastes (pastes : list paste) (r : run) : run :=
  match pastes with
  | [] => r
  | p :: rest =>
      if terminate (world r) then r
      else
        match alredyChecked (gl r) !! Key p with
        | Some _ => rangePastes rest r
        | None =>
            let '(err, g, w) := fetch p (gl r) (world r) in
            let r1 := {| gl := g; world := w; trace := trace r ++ [EvFetch p] |} in
            let r2 := reportIf "fetch: " err r1 in
            rangePastes rest (timeSleep (1 * second) r2)
        end
  end.

(** [for k, v := range alredyChecked { if v.Before(threshold) { delete } }],
    over the entries in the order the runtime hands them out. *)
Fixpoint rangeExpire (entries : list (list N * Z)) (threshold : Z)
    (m : gmap (list N) Z) : gmap (list N) Z :=
  match entries with
  | [] => m
  | (k, v) :: rest =>
      rangeExpire rest threshold (if v <? threshold then delete k m else m)
  end.

Definition cleanUp (r : run) : run :=
  let threshold := now (world r) + (-10) * minute in
  {| gl := {| alredyChecked :=
                rangeExpire (map_to_list (alredyChecked (gl r))) threshold
                  (alredyChecked (gl r));
              lastCheck := lastCheck (gl r) |};
     world := world r; trace := trace r |}.

(** "Only fetch the main list once a minute": the wait at the head of a
    cycle. *)
Definition idle (r : run) : run :=
  let sleepTime := lastCheck (gl r) + 1 * minute - now (world r) in
  if 0 <? sleepTime then timeSleep sleepTime r else r.

(** The body of the endless [for] of [main], below the [terminate] test. *)
Definition pollCycle (r : run) : run :=
  let r1 := idle r in
  let '(pastes, err, g, w) := fetchPasteList (gl r1) (world r1) in
  let r2 := {| gl := g; world := w; trace := trace r1 ++ [EvFetchPasteList] |} in
  let r3 := reportIf "fetchPasteList: " err r2 in
  cleanUp (rangePastes pastes r3).

(** The endless [for], cut after [cycles] rounds.  The flag tells whether
    the loop was left through [break]. *)
Fixpoint mainLoop (cycles : nat) (r : run) : run * bool :=
  match cycles with
  | O => (r, false)
  | S n => if terminate (world r) then (r, true) else mainLoop n (pollCycle r)
  end.

Definition isFetch (ev : event) : bool :=
  match ev with EvFetch _ => true | _ => false end.

Definition isSleepOf (d : Z) (ev : event) : bool :=
  match ev with EvSleep d' => d' =? d | _ => false end.

End Loop.

Arguments EvSleep {paste} d.
Arguments EvFetchPasteList {paste}.
Arguments EvFetch {paste} p.
Arguments EvError {paste} e.
Arguments gl {paste World} r.
Arguments world {paste World} r.
Arguments trace {paste World} r.
Arguments timeSleep {paste World} sleep d r.
Arguments sendError {paste World} prefix err r.
Arguments reportIf {paste World} prefix err r.
Arguments fetchPasteList {paste World} now listEndpoint g w.
Arguments rangePastes {paste} Key {World} sleep terminate fetch pastes r.
Arguments cleanUp {paste World} now r.
Arguments idle {paste World} now sleep r.
Arguments pollCycle {paste} Key {World} now sleep terminate listEndpoint fetch r.
Arguments mainLoop {paste} Key {World} now sleep terminate listEndpoint fetch
  cycles r.
Arguments fetchEvents {paste} p err.
Arguments isFetch {paste} ev.
Arguments isSleepOf {paste} d ev.

End PollLoop.

(* ===================================================================== *)
(** ** The goroutines around the loop *)
(* ===================================================================== *)

Module Delivery.

Section Workers.

Variable paste : Type.
Variable World : Type.

(** [p.sendPasteMessage()] and [sendErrorMessage(err)] are outside
    [main.go]; [None] is the nil error. *)
Variable sendPasteMessage : paste → World → option (list N) * World.
Variable sendErrorMessage : list N → World → option (list N) * World.

Inductive action :=
  | ActSendPaste (p : paste)       (* p.sendPasteMessage() *)
  | ActChanError (e : list N)      (* chanError <- e *)
  | ActLog (msg : list N)          (* log.Printf *)
  | ActSendError (e : list N).     (* sendErrorMessage(e) *)

(** The goroutine that drains [chanOutput]; [ps] is what the channel
    delivers before it is closed. *)
Fixpoint outputWorker (ps : list paste) (w : World) : list action * World :=
  match ps with
  | [] => ([], w)
  | p :: rest =>
      let '(err, w1) := sendPasteMessage p w in
      let report :=
        match err with
        | Some e => [ActChanError (runes "sendPasteMessage: " ++ e)]
        | None => []
        end in
      let '(acts, w2) := outputWorker rest w1 in
      (ActSendPaste p :: report ++ acts, w2)
  end.

(** The goroutine that drains [chanError]. *)
Fixpoint errorWorker (mailonerror : bool) (errs : list (list N)) (w : World)
    : list action * World :=
  match errs with
  | [] => ([], w)
  | err :: rest =>
      let '(mail, w1) :=
        if mailonerror then
          let '(err2, w') := sendErrorMessage err w in
          (ActSendError err ::
             match err2 with
             | Some e2 => [ActLog (runes "ERROR on sending error mail: " ++ e2)]
             | None => []
             end, w')
        else ([], w) in
      let '(acts, w2) := errorWorker mailonerror rest w1 in
      (ActLog err :: mail ++ acts, w2)
  end.

Definition isSendPaste (a : action) : bool :=
  match a with ActSendPaste _ => true | _ => false end.
Definition isChanError (a : action) : bool :=
  match a with ActChanError _ => true | _ => false end.
Definition isSendError (a : action) : bool :=
  match a with ActSendError _ => true | _ => false end.
Definition isLog (a : action) : bool :=
  match a with ActLog _ => true | _ => false end.

(** The pastes of [ps] whose send fails, with the error each one gets, when
    the worker starts in [w]. *)
Fixpoint failedSends (ps : list paste) (w : World) : list (list N) :=
  match ps with
  | [] => []
  | p :: rest =>
      let '(err, w1) := sendPasteMessage p w in
      match err with
      | Some e => e :: failedSends rest w1
      | None => failedSends rest w1
      end
  end.

End Workers.

(** *** The process as interleaved goroutines

    Each goroutine is a program counter; the channels are unbuffered, so a
    send and the matching receive are one step.  A send on a closed channel,
    or closing one twice, is a panic. *)

Section Process.

Variable paste : Type.

Inductive mainPc :=
  | MLoop           (* inside the endless for *)
  | MCloseOutput    (* close(chanOutput) *)
  | MWaitOutput     (* wgOutput.Wait() *)
  | MCloseError     (* close(chanError) *)
  | MWaitError      (* wgError.Wait() *)
  | MReturned.      (* the deferred cancel() has run *)

Inductive outputPc :=
  | OReceive                             (* for p := range chanOutput *)
  | OSending (p : paste)                 (* p.sendPasteMessage() *)
  | OReporting (p : paste) (e : list N)  (* chanError <- ... *)
  | OReturned.                           (* wgOutput.Done() *)

Inductive errorPc :=
  | EReceive                 (* for err := range chanError *)
  | EHandling (e : list N)   (* log, and mail if configured *)
  | EReturned.               (* wgError.Done() *)

Inductive signalPc :=
  | SReceive     (* for range chanSignal *)
  | SReturned.   (* cancel() has run *)

Record system := {
  mainAt : mainPc;
  outputAt : outputPc;
  errorAt : errorPc;
  signalAt : signalPc;
  terminate : bool;
  ctxCancelled : bool;
  outputClosed : bool;
  errorClosed : bool;
  signalClosed : bool;
  panicked : bool;
  sentOutput : list paste;        (* received from chanOutput so far *)
  handledOutput : list paste;     (* iterations of the output worker done *)
  sentErrors : list (list N);     (* received from chanError so far *)
  handledErrors : list (list N)   (* iterations of the error worker done *)
}.

Definition start : system :=
  {| mainAt := MLoop; outputAt := OReceive; errorAt := EReceive;
     signalAt := SReceive; terminate := false; ctxCancelled := false;
     outputClosed := false; errorClosed := false; signalClosed := false;
     panicked := false; sentOutput := []; handledOutput := [];
     sentErrors := []; handledErrors := [] |}.

Definition panic (s : system) : system :=
  {| mainAt := mainAt s; outputAt := outputAt s; errorAt := errorAt s;
     signalAt := signalAt s; terminate := terminate s;
     ctxCancelled := ctxCancelled s; outputClosed := outputClosed s;
     errorClosed := errorClosed s; signalClosed := signalClosed s;
     panicked := true; sentOutput := sentOutput s;
     handledOutput := handledOutput s; sentErrors := sentErrors s;
     handledErrors := handledErrors s |}.

Definition setMain (pc : mainPc) (s : system) : system :=
  {| mainAt := pc; outputAt := outputAt s; errorAt := errorAt s;
     signalAt := signalAt s; terminate := terminate s;
     ctxCancelled := ctxCancelled s; outputClosed := outputClosed s;
     errorClosed := errorClosed s; signalClosed := signalClosed s;
     panicked := panicked s; sentOutput := sentOutput s;
     handledOutput := handledOutput s; sentErrors := sentErrors s;
     handledErrors := handledErrors s |}.

Definition setOutput (pc : outputPc) (s : system) : system :=
  {| mainAt := mainAt s; outputAt := pc; errorAt := errorAt s;
     signalAt := signalAt s; terminate := terminate s;
     ctxCancelled := ctxCancelled s; outputClosed := outputClosed s;
     errorClosed := errorClosed s; signalClosed := signalClosed s;
     panicked := panicked s; sentOutput := sentOutput s;
     handledOutput := handledOutput s; sentErrors := sentErrors s;
     handledErrors := handledErrors s |}.

Definition setError (pc : errorPc) (s : system) : system :=
  {| mainAt := mainAt s; outputAt := outputAt s; errorAt := pc;
     signalAt := signalAt s; terminate := terminate s;
     ctxCancelled := ctxCancelled s; outputClosed := outputClosed s;
     errorClosed := errorClosed s; signalClosed := signalClosed s;
     panicked := panicked s; sentOutput := sentOutput s;
     handledOutput := handledOutput s; sentErrors := sentErrors s;
     handledErrors := handledErrors s |}.

Definition closeOutput (s : system) : system :=
  {| mainAt := mainAt s; outputAt := outputAt s; errorAt := errorAt s;
     signalAt := signalAt s; terminate := terminate s;
     ctxCancelled := ctxCancelled s; outputClosed := true;
     errorClosed := errorClosed s; signalClosed := signalClosed s;
     panicked := panicked s; sentOutput := sentOutput s;
     handledOutput := handledOutput s; sentErrors := sentErrors s;
     handledErrors := handledErrors s |}.

Definition closeError (s : system) : system :=
  {| mainAt := mainAt s; outputAt := outputAt s; errorAt := errorAt s;
     signalAt := signalAt s; terminate := terminate s;
     ctxCancelled := ctxCancelled s; outputClosed := outputClosed s;
     errorClosed := true; signalClosed := signalClosed s;
     panicked := panicked s; sentOutput := sentOutput s;
     handledOutput := handledOutput s; sentErrors := sentErrors s;
     handledErrors := handledErrors s |}.

Definition cancel (s : system) : system :=
  {| mainAt := mainAt s; outputAt := outputAt s; errorAt := errorAt s;
     signalAt := signalAt s; terminate := terminate s;
     ctxCancelled := true; outputClosed := outputClosed s;
     errorClosed := errorClosed s; signalClosed := signalClosed s;
     panicked := panicked s; sentOutput := sentOutput s;
     handledOutput := handledOutput s; sentErrors := sentErrors s;
     handledErrors := handledErrors s |}.

Definition setTerminate (s : system) : system :=
  {| mainAt := mainAt s; outputAt := outputAt s; errorAt := errorAt s;
     signalAt := signalAt s; terminate := true;
     ctxCancelled := ctxCancelled s; outputClosed := outputClosed s;
     errorClosed := errorClosed s; signalClosed := signalClosed s;
     panicked := panicked s; sentOutput := sentOutput s;
     handledOutput := handledOutput s; sentErrors := sentErrors s;
     handledErrors := handledErrors s |}.

Definition signalReturn (s : system) : system :=
  {| mainAt := mainAt s; outputAt := outputAt s; errorAt := errorAt s;
     signalAt := SReturned; terminate := terminate s;
     ctxCancelled := true; outputClosed := outputClosed s;
     errorClosed := errorClosed s; signalClosed := signalClosed s;
     panicked := panicked s; sentOutput := sentOutput s;
     handledOutput := handledOutput s; sentErrors := sentErrors s;
     handledErrors := handledErrors s |}.

(** The output worker takes [p] from [chanOutput]. *)
Definition receiveOutput (p : paste) (s : system) : system :=
  {| mainAt := mainAt s; outputAt := OSending p; errorAt := errorAt s;
     signalAt := signalAt s; terminate := terminate s;
     ctxCancelled := ctxCancelled s; outputClosed := outputClosed s;
     errorClosed := errorClosed s; signalClosed := signalClosed s;
     panicked := panicked s; sentOutput := sentOutput s ++ [p];
     handledOutput := handledOutput s; sentErrors := sentErrors s;
     handledErrors := handledErrors s |}.

(** The error worker takes [e] from [chanError]. *)
Definition receiveError (e : list N) (s : system) : system :=
  {| mainAt := mainAt s; outputAt := outputAt s; errorAt := EHandling e;
     signalAt := signalAt s; terminate := terminate s;
     ctxCancelled := ctxCancelled s; outputClosed := outputClosed s;
     errorClosed := errorClosed s; signalClosed := signalClosed s;
     panicked := panicked s; sentOutput := sentOutput s;
     handledOutput := handledOutput s; sentErrors := sentErrors s ++ [e];
     handledErrors := handledErrors s |}.

(** The output worker ends its iteration for [p]. *)
Definition doneOutput (p : paste) (s : system) : system :=
  {| mainAt := mainAt s; outputAt := OReceive; errorAt := errorAt s;
     signalAt := signalAt s; terminate := terminate s;
     ctxCancelled := ctxCancelled s; outputClosed := outputClosed s;
     errorClosed := errorClosed s; signalClosed := signalClosed s;
     panicked := panicked s; sentOutput := sentOutput s;
     handledOutput := handledOutput s ++ [p]; sentErrors := sentErrors s;
     handledErrors := handledErrors s |}.

(** The error worker ends its iteration for [e]. *)
Definition doneError (e : list N) (s : system) : system :=
  {| mainAt := mainAt s; outputAt := outputAt s; errorAt := EReceive;
     signalAt := signalAt s; terminate := terminate s;
     ctxCancelled := ctxCancelled s; outputClosed := outputClosed s;
     errorClosed := errorClosed s; signalClosed := signalClosed s;
     panicked := panicked s; sentOutput := sentOutput s;
     handledOutput := handledOutput s; sentErrors := sentErrors s;
     handledErrors := handledErrors s ++ [e] |}.

(** Who moves next, and with what outcome of the calls that leave the
    process. *)
Inductive label :=
  | LSendOutput (p : paste)            (* the loop: chanOutput <- p *)
  | LSendError (e : list N)            (* the loop: chanError <- e *)
  | LLeaveLoop                         (* the loop sees terminate *)
  | LMain                              (* main, below the loop *)
  | LOutput (result : option (list N)) (* the output worker *)
  | LError                             (* the error worker *)
  | LInterrupt                         (* os.Interrupt arrives *)
  | LSignalClosed.                     (* range chanSignal ends *)

(** One step; [None] when the goroutine named by the label cannot move. *)
Definition next (l : label) (s : system) : option system :=
  if panicked s then None else
  match l with
  | LSendOutput p =>
      match mainAt s with
      | MLoop =>
          if outputClosed s then Some (panic s)
          else match outputAt s with
               | OReceive => Some (receiveOutput p s)
               | _ => None
               end
      | _ => None
      end
  | LSendError e =>
      match mainAt s with
      | MLoop =>
          if errorClosed s then Some (panic s)
          else match errorAt s with
               | EReceive => Some (receiveError e s)
               | _ => None
               end
      | _ => None
      end
  | LLeaveLoop =>
      match mainAt s with
      | MLoop => if terminate s then Some (setMain MCloseOutput s) else None
      | _ => None
      end
  | LMain =>
      match mainAt s with
      | MLoop => None
      | MCloseOutput =>
          if outputClosed s then Some (panic s)
          else Some (setMain MWaitOutput (closeOutput s))
      | MWaitOutput =>
          match outputAt s with
          | OReturned => Some (setMain MCloseError s)
          | _ => None
          end
      | MCloseError =>
          if errorClosed s then Some (panic s)
          else Some (setMain MWaitError (closeError s))
      | MWaitError =>
          match errorAt s with
          | EReturned => Some (setMain MReturned (cancel s))
          | _ => None
          end
      | MReturned => None
      end
  | LOutput result =>
      match outputAt s with
      | OReceive => if outputClosed s then Some (setOutput OReturned s) else None
      | OSending p =>
          match result with
          | None => Some (doneOutput p s)
          | Some e =>
              Some (setOutput (OReporting p (runes "sendPasteMessage: " ++ e)) s)
          end
      | OReporting p e =>
          if errorClosed s then Some (panic s)
          else match errorAt s with
               | EReceive => Some (doneOutput p (receiveError e s))
               | _ => None
               end
      | OReturned => None
      end
  | LError =>
      match errorAt s with
      | EReceive => if errorClosed s then Some (setError EReturned s) else None
      | EHandling e => Some (doneError e s)
      | EReturned => None
      end
  | LInterrupt =>
      match signalAt s with
      | SReceive => if signalClosed s then None else Some (setTerminate s)
      | SReturned => None
      end
  | LSignalClosed =>
      match signalAt s with
      | SReceive => if signalClosed s then Some (signalReturn s) else None
      | SReturned => None
      end
  end.

(** A schedule is run from left to right. *)
Fixpoint exec (sched : list label) (s : system) : option system :=
  match sched with
  | [] => Some s
  | l :: rest => s' ← next l s; exec rest s'
  end.

Definition reachable (s : system) : Prop :=
  ∃ sched, exec sched start = Some s.

(** What a worker holds between taking an item and ending its iteration. *)
Definition inFlightOutput (pc : outputPc) : list paste :=
  match pc with
  | OSending p | OReporting p _ => [p]
  | _ => []
  end.

Definition inFlightError (pc : errorPc) : list (list N) :=
  match pc with
  | EHandling e => [e]
  | _ => []
  end.

Definition pastLoop (pc : mainPc) : bool :=
  match pc with MLoop => false | _ => true end.

Definition afterCloseOutput (pc : mainPc) : bool :=
  match pc with MLoop | MCloseOutput => false | _ => true end.

Definition afterWaitOutput (pc : mainPc) : bool :=
  match pc with MCloseError | MWaitError | MReturned => true | _ => false end.

Definition afterCloseError (pc : mainPc) : bool :=
  match pc with MWaitError | MReturned => true | _ => false end.

Definition hasReturned (pc : mainPc) : bool :=
  match pc with MReturned => true | _ => false end.

(** What holds in every state the process can reach. *)
Record invariant (s : system) : Prop := {
  inv_panicked : panicked s = false;
  inv_signalAt : signalAt s = SReceive;
  inv_signalClosed : signalClosed s = false;
  inv_cancelled : ctxCancelled s = hasReturned (mainAt s);
  inv_outputClosed : outputClosed s = afterCloseOutput (mainAt s);
  inv_errorClosed : errorClosed s = afterCloseError (mainAt s);
  inv_outputJoined : afterWaitOutput (mainAt s) = true → outputAt s = OReturned;
  inv_outputReturned : outputAt s = OReturned → outputClosed s = true;
  inv_errorJoined : mainAt s = MReturned → errorAt s = EReturned;
  inv_errorReturned : errorAt s = EReturned → errorClosed s = true;
  inv_output : sentOutput s = handledOutput s ++ inFlightOutput (outputAt s);
  inv_errors : sentErrors s = handledErrors s ++ inFlightError (errorAt s);
  inv_terminate : pastLoop (mainAt s) = true → terminate s = true
}.

(** How far the shutdown still has to go; every step below the loop, other
    than an interrupt, makes it smaller. *)
Definition remaining (s : system) : nat :=
  10 * match mainAt s with
       | MLoop => 5 | MCloseOutput => 4 | MWaitOutput => 3
       | MCloseError => 2 | MWaitError => 1 | MReturned => 0
       end
  + 3 * match outputAt s with
        | OSending _ => 3 | OReporting _ _ => 2 | OReceive => 1 | OReturned => 0
        end
  + match errorAt s with
    | EHandling _ => 2 | EReceive => 1 | EReturned => 0
    end.

Definition isInterrupt (l : label) : bool :=
  match l with LInterrupt => true | _ => false end.

End Process.

Arguments ActSendPaste {paste} p.
Arguments ActChanError {paste} e.
Arguments ActLog {paste} msg.
Arguments ActSendError {paste} e.
Arguments outputWorker {paste World} sendPasteMessage ps w.
Arguments errorWorker {paste World} sendErrorMessage mailonerror errs w.
Arguments failedSends {paste World} sendPasteMessage ps w.
Arguments isSendPaste {paste} a.
Arguments isChanError {paste} a.
Arguments isSendError {paste} a.
Arguments isLog {paste} a.
Arguments OReceive {paste}.
Arguments OSending {paste} p.
Arguments OReporting {paste} p e.
Arguments OReturned {paste}.
Arguments mainAt {paste} s.
Arguments outputAt {paste} s.
Arguments errorAt {paste} s.
Arguments signalAt {paste} s.
Arguments terminate {paste} s.
Arguments ctxCancelled {paste} s.
Arguments outputClosed {paste} s.
Arguments errorClosed {paste} s.
Arguments signalClosed {paste} s.
Arguments panicked {paste} s.
Arguments sentOutput {paste} s.
Arguments handledOutput {paste} s.
Arguments sentErrors {paste} s.
Arguments handledErrors {paste} s.
Arguments start {paste}.
Arguments setTerminate {paste} s.
Arguments LSendOutput {paste} p.
Arguments LSendError {paste} e.
Arguments LLeaveLoop {paste}.
Arguments LMain {paste}.
Arguments LOutput {paste} result.
Arguments LError {paste}.
Arguments LInterrupt {paste}.
Arguments LSignalClosed {paste}.
Arguments next {paste} l s.
Arguments exec {paste} sched s.
Arguments reachable {paste} s.
Arguments invariant {paste} s.
Arguments remaining {paste} s.
Arguments isInterrupt {paste} l.
Arguments inFlightOutput {paste} pc.

End Delivery.

(* ===================================================================== *)
(** ** The loop on a small world

    The clock is the whole world: the list endpoint times out after ten
    seconds, fetching a paste takes one second, succeeds and stamps the
    key; nobody interrupts. *)

Module Example.
Import PollLoop.
Local Open Scope Z_scope.

Definition Key (p : list N) : list N := p.
Definition now (w : Z) : Z := w.
Definition sleep (d w : Z) : Z := w + d.
Definition terminate (w : Z) : bool := false.
Definition listEndpoint (w : Z) : (list (list N) + list N) * Z :=
  (inr (runes "timeout"), w + 10 * second).
Definition fetch (p : list N) (g : globals) (w : Z)
    : option (list N) * globals * Z :=
  (None,
   {| alredyChecked := <[Key p := w]> (alredyChecked g);
      lastCheck := lastCheck g |},
   w + second).

(** Two keys seen earlier: one twenty minutes ago, one a minute ago. *)
Definition r0 : run (list N) Z :=
  {| gl := {| alredyChecked := {[ runes "old" := 0; runes "new" := 1140 * second ]};
              lastCheck := 1140 * second |};
     world := 1200 * second;
     trace := [] |}.

End Example.

(* ===================================================================== *)
(** ** The start of main *)
(* ===================================================================== *)

Module Startup.

Section Startup.

(** [os.Open] and the JSON decoder are outside the program; [inr] carries
    the error. *)
Variable File : Type.
Variable osOpen : list N → File + list N.
Variable decode : File → configuration + list N.

Inductive outcome :=
  | Fatal (msg : list N)   (* log.Fatal: the process exits *)
  | Panicked               (* regexp.MustCompile panics *)
  | Polling (config : configuration)
      (keywordsRegex : gmap (list N) keywordRegexType).

(** [main] from [flag.Parse] to the head of the endless loop, as far as the
    configuration and the table of patterns go. *)
Definition startup (configFile : list N) : outcome :=
  match configFile with
  | [] => Fatal (runes "Please provide a valid config file")
  | _ :: _ =>
      match osOpen configFile with
      | inr err => Fatal (runes "Error opening config file: " ++ err)
      | inl file =>
          match decode file with
          | inr err => Fatal (runes "Error parsing config file: " ++ err)
          | inl config =>
              match compileKeywords (Keywords config) ∅ with
              | Some keywordsRegex => Polling config keywordsRegex
              | None => Panicked
              end
          end
      end
  end.

End Startup.

Arguments startup {File} osOpen decode configFile.

End Startup.

(* ===================================================================== *)
(** ** Notions for the further properties *)
(* ===================================================================== *)

Module Notions.

(** The line [checkKeywords] records for the keyword [K], if any. *)
Definition hitFor `{CaseFolding} (keywordsRegex : gmap (list N) keywordRegexType)
    (body : gostring) (K : gostring) : option gostring :=
  r ← checkKeywords keywordsRegex body; r.2 !! K.

(** No white space at either end. *)
Definition trimmed (s : gostring) : Prop :=
  (∀ c, head s = Some c → isSpace c = false) ∧
  (∀ c, last s = Some c → isSpace c = false).

(** The last entry of the configuration for the keyword [K]. *)
Definition lastEntry (K : gostring) (ks : list keywordType) : option keywordType :=
  last (filter (λ k, Keyword k = K) ks).

(** The events of the item loop, read by a three-state recogniser: a fetch,
    then at most one error report, then the sleep of one second. *)
Inductive pairing := Between | Fetched | Reported.

Fixpoint pairedFrom {paste : Type} (st : pairing)
    (evs : list (PollLoop.event paste)) : bool :=
  match evs with
  | [] => match st with Between => true | _ => false end
  | ev :: rest =>
      match st, ev with
      | Between, PollLoop.EvFetch _ => pairedFrom Fetched rest
      | Fetched, PollLoop.EvError _ => pairedFrom Reported rest
      | Fetched, PollLoop.EvSleep d
      | Reported, PollLoop.EvSleep d =>
          (d =? 1 * PollLoop.second)%Z && pairedFrom Between rest
      | _, _ => false
      end
  end.

Definition isListFetch {paste : Type} (ev : PollLoop.event paste) : bool :=
  match ev with PollLoop.EvFetchPasteList => true | _ => false end.

(** The states of a process that nobody has interrupted. *)
Definition undisturbed {paste : Type} (s : Delivery.system paste) : Prop :=
  Delivery.mainAt s = Delivery.MLoop ∧ Delivery.terminate s = false ∧
  Delivery.ctxCancelled s = false ∧
  Delivery.outputClosed s = false ∧ Delivery.errorClosed s = false ∧
  Delivery.signalClosed s = false ∧
  Delivery.panicked s = false ∧ Delivery.signalAt s = Delivery.SReceive ∧
  Delivery.outputAt s ≠ Delivery.OReturned ∧
  Delivery.errorAt s ≠ Delivery.EReturned.

End Notions.
Import Notions.

(* ===================================================================== *)
(** * Properties *)
(* ===================================================================== *)

(** ** The parser on keyword patterns *)

Section ParserFacts.

Lemma special_true c :
  special c = true →
  (c =? 98) = false ∧ (c <? 128) = true ∧ isalnum c = false.
Proof.
  unfold special. simpl. rewrite !orb_true_iff, !N.eqb_eq.
  intros Hc. repeat destruct Hc as [Hc|Hc]; subst; try done.
Qed.

Lemma special_false c :
  special c = false →
  (c =? 40) = false ∧ (c =? 41) = false ∧ (c =? 94) = false ∧
  (c =? 36) = false ∧ (c =? 46) = false ∧ (c =? 42) = false ∧
  (c =? 92) = false ∧ (c =? 124) = false ∧ (c =? 91) = false ∧
  (c =? 43) = false ∧ (c =? 63) = false ∧ (c =? 123) = false.
Proof.
  unfold special. simpl. rewrite !orb_false_iff. tauto.
Qed.

(** A quoted keyword is read as literals, one per rune, whatever follows,
    unless the count of runes goes over the limit. *)
Lemma parseRun_QuoteMeta k : ∀ fl n cur stk u rest,
  u ≤ maxRunes →
  parseRun {| p_mode := PNormal; p_flags := fl; p_ncap := n;
              p_cur := cur; p_stack := stk; p_numRunes := u |}
    (QuoteMeta k ++ rest)
  = if maxRunes <? u + N.of_nat (length k) then None
    else parseRun {| p_mode := PNormal; p_flags := fl; p_ncap := n;
                     p_cur := rev (map (λ c, RChar (CLit (fFold fl) c)) k) ++ cur;
                     p_stack := stk;
                     p_numRunes := u + N.of_nat (length k) |} rest.
Proof.
  induction k as [|c k IH]; intros fl n cur stk u rest Hu.
  - cbn [QuoteMeta app length map rev N.of_nat]. rewrite N.add_0_r.
    apply N.ltb_ge in Hu. by rewrite Hu.
  - assert (Hlit : ∀ tl,
      (st ← pushLiteral {| p_mode := PNormal; p_flags := fl; p_ncap := n;
                           p_cur := cur; p_stack := stk; p_numRunes := u |} c;
       parseRun st (QuoteMeta k ++ tl))
      = if maxRunes <? u + N.of_nat (length (c :: k)) then None
        else parseRun {| p_mode := PNormal; p_flags := fl; p_ncap := n;
                         p_cur := rev (map (λ c, RChar (CLit (fFold fl) c)) (c :: k))
                                  ++ cur;
                         p_stack := stk;
                         p_numRunes := u + N.of_nat (length (c :: k)) |} tl).
    { intros tl. unfold pushLiteral. cbn [p_numRunes p_flags p_ncap p_cur p_stack].
      cbn [length]. rewrite Nat2N.inj_succ.
      replace (u + N.succ (N.of_nat (length k)))
        with (u + 1 + N.of_nat (length k)) by lia.
      destruct (maxRunes <? u + 1) eqn:Hlim; cbn [mbind option_bind].
      - apply N.ltb_lt in Hlim.
        assert ((maxRunes <? u + 1 + N.of_nat (length k)) = true) as ->
          by (apply N.ltb_lt; lia).
        done.
      - apply N.ltb_ge in Hlim. rewrite IH by done.
        cbn [map rev]. by rewrite <- app_assoc. }
    cbn [QuoteMeta]. destruct (special c) eqn:Hs.
    + destruct (special_true c Hs) as (Hb & Hlt & Hal).
      assert (Hbs : parseStep {| p_mode := PNormal; p_flags := fl; p_ncap := n;
                                 p_cur := cur; p_stack := stk;
                                 p_numRunes := u |} 92
                    = Some {| p_mode := PEscape; p_flags := fl; p_ncap := n;
                              p_cur := cur; p_stack := stk;
                              p_numRunes := u |}) by reflexivity.
      cbn [app parseRun]. rewrite Hbs. cbn [mbind option_bind parseRun].
      unfold parseStep at 1. cbn [p_mode]. rewrite Hb, Hlt, Hal.
      cbn [andb negb]. apply Hlit.
    + destruct (special_false c Hs)
        as (H1 & H2 & H3 & H4 & H5 & H6 & H7 & H8 & H9 & H10 & H11 & H12).
      cbn [app parseRun]. unfold parseStep at 1. cbn [p_mode].
      unfold normalStep.
      rewrite H1, H2, H3, H4, H5, H6, H7, H8, H9, H10, H11, H12.
      cbn [orb]. apply Hlit.
Qed.

(** The pattern of a keyword compiles to the tree of the design when the
    keyword is within the limit, and is refused as too large otherwise. *)
Lemma Compile_keywordPattern k :
  Compile (keywordPattern k)
  = if fits k then Some (lineWithKeyword k) else None.
Proof.
  unfold Compile, keywordPattern.
  change (runes "(?im)^(.*\b") with
    ([40; 63; 105; 109; 41; 94; 40; 46; 42; 92; 98] : list N).
  change (runes ".*)$") with ([46; 42; 41; 36] : list N).
  cbn [app parseRun].
  change (parseStep pinit 40) with (Some (setMode pinit PGroupOpen)).
  cbn -[parseRun QuoteMeta app]. unfold push, setMode.
  cbn [p_flags p_ncap p_cur p_stack p_numRunes].
  rewrite parseRun_QuoteMeta by apply N.le_0_l.
  rewrite N.add_0_l. unfold fits. rewrite N.ltb_antisym.
  destruct (N.of_nat (length k) <=? maxRunes); cbn [negb]; [|done].
  cbn -[N.of_nat]. unfold lineWithKeyword. do 3 f_equal.
  rewrite !rev_app_distr, rev_involutive. reflexivity.
Qed.

Lemma MustCompile_fits k :
  fits k = true → MustCompile (keywordPattern k) = Some (lineWithKeyword k).
Proof. intros Hk. unfold MustCompile. by rewrite Compile_keywordPattern, Hk. Qed.

Lemma MustCompile_too_large k :
  fits k = false → MustCompile (keywordPattern k) = None.
Proof. intros Hk. unfold MustCompile. by rewrite Compile_keywordPattern, Hk. Qed.

(** Without the quoting the dot of a keyword would be read as syntax. *)
Example Compile_unquoted_dot :
  Compile (runes "(?im)^(.*\b" ++ runes "a.b" ++ runes ".*)$")
  = Some (RConcat RBeginLine
            (RConcat
               (RCapture 1
                  (concat [RStar CAnyNotNL; RWordBoundary;
                           RChar (CLit true 97); RChar CAnyNotNL;
                           RChar (CLit true 98); RStar CAnyNotNL]))
               (RConcat REndLine REmpty))).
Proof. reflexivity. Qed.

End ParserFacts.

(** ** The matcher on keyword patterns *)

Section MatcherFacts.
Context `{CaseFolding}.

Lemma noNL_cons c s : noNL (c :: s) ↔ c ≠ NL ∧ noNL s.
Proof. apply (Forall_cons (λ x, x ≠ NL)). Qed.

Lemma eqb_NL_false c : c ≠ NL → (c =? NL) = false.
Proof. intros Hc. by apply N.eqb_neq. Qed.

Lemma foldEq_NL_r c : c ≠ NL → foldEq c NL = false.
Proof.
  intros Hc. unfold foldEq. rewrite N.eqb_refl, orb_true_r. by apply N.eqb_neq.
Qed.

Lemma foldEq_NL_l r : r ≠ NL → foldEq NL r = false.
Proof.
  intros Hr. unfold foldEq. rewrite N.eqb_refl, orb_true_l.
  apply N.eqb_neq. congruence.
Qed.

(** A continuation that does not look at the rune before the position gives
    a repetition that does not look at it either. *)
Lemma matchStar_prev cc k : 
  (∀ p p' t, k p t = k p' t) →
  ∀ s p p', matchStar cc p s k = matchStar cc p' s k.
Proof.
  intros Hk. induction s as [|c s IH]; intros p p'; cbn; [apply Hk|].
  destruct (classMatches cc c); [|apply Hk].
  by rewrite (Hk p p').
Qed.

(** The greedy [.*] runs to the end of the line when what follows accepts
    that place. *)
Lemma matchStar_to_eol k rest r :
  atEndLine rest = true →
  (∀ p, k p rest = Some r) →
  ∀ t p, noNL t → matchStar CAnyNotNL p (t ++ rest) k = Some r.
Proof.
  intros Hrest Hk. induction t as [|c t IH]; intros p Ht.
  - cbn. destruct rest as [|c rest]; cbn; [apply Hk|].
    cbn in Hrest. rewrite Hrest. apply Hk.
  - apply noNL_cons in Ht as [Hc Ht]. cbn.
    rewrite (eqb_NL_false c Hc). cbn. by rewrite IH.
Qed.

(** The literals of the keyword, one after the other. *)
Lemma matchRe_literals k tl cs K R :
  (∀ p t, matchRe tl p t cs K = R t) →
  ∀ s p,
    matchRe (foldr RConcat tl (map (λ c, RChar (CLit true c)) k)) p s cs K
    = if foldPrefix k s then R (drop (length k) s) else None.
Proof.
  intros Htl. induction k as [|c k IH]; intros s p; cbn.
  - apply Htl.
  - destruct s as [|r s]; [done|]. cbn.
    destruct (foldEq c r); [apply IH|done].
Qed.

(** A keyword without line feed cannot reach over the end of a line. *)
Lemma foldPrefix_line k rest :
  noNL k → atEndLine rest = true →
  ∀ post, foldPrefix k (post ++ rest) = foldPrefix k post.
Proof.
  intros Hk Hrest. induction Hk as [|c k Hc Hk IH]; intros post; [done|].
  destruct post as [|r post]; cbn.
  - destruct rest as [|r rest]; [done|]. cbn in Hrest.
    apply N.eqb_eq in Hrest as ->. by rewrite foldEq_NL_r.
  - by rewrite IH.
Qed.

Lemma foldPrefix_length k : ∀ s, foldPrefix k s = true → (length k ≤ length s)%nat.
Proof.
  induction k as [|c k IH]; intros s Hs; cbn; [lia|].
  destruct s as [|r s]; [done|]. cbn in Hs.
  apply andb_true_iff in Hs as [_ Hs]. apply IH in Hs. cbn. lia.
Qed.

Lemma foldPrefix_noNL k : ∀ s, foldPrefix k s = true → noNL s → noNL k.
Proof.
  induction k as [|c k IH]; intros s Hs Hn; [constructor|].
  destruct s as [|r s]; [done|]. cbn in Hs.
  apply andb_true_iff in Hs as [Hcr Hs].
  apply noNL_cons in Hn as [Hr Hn]. apply noNL_cons. split; [|by eapply IH].
  intros ->. by rewrite foldEq_NL_l in Hcr.
Qed.

Lemma atWordBoundary_line p post rest :
  atEndLine rest = true →
  atWordBoundary p (post ++ rest) = atWordBoundary p post.
Proof.
  intros Hrest. destruct post as [|c post]; [|done].
  destruct rest as [|c rest]; [done|]. cbn in Hrest.
  apply N.eqb_eq in Hrest as ->. reflexivity.
Qed.

Lemma delimitedFrom_prev k p p' s :
  isWordAt p = isWordAt p' → delimitedFrom k p s = delimitedFrom k p' s.
Proof.
  intros Hp. destruct s; cbn; unfold delimitedAt, atWordBoundary; by rewrite Hp.
Qed.

Lemma delimitedFrom_noNL k : ∀ s p, delimitedFrom k p s = true → noNL s → noNL k.
Proof.
  induction s as [|c s IH]; intros p Hd Hn; cbn in Hd.
  - rewrite orb_false_r in Hd. unfold delimitedAt in Hd.
    apply andb_true_iff in Hd as [_ Hd]. by eapply foldPrefix_noNL.
  - apply orb_true_iff in Hd as [Hd|Hd].
    + unfold delimitedAt in Hd. apply andb_true_iff in Hd as [_ Hd].
      by eapply foldPrefix_noNL.
    + apply noNL_cons in Hn as [_ Hn]. by eapply IH.
Qed.

(** The first [.*] gives back rune after rune until the rest of the pattern
    accepts; the outcome does not depend on where that happens. *)
Lemma matchStar_scan kw k rest C :
  atEndLine rest = true →
  (∀ p post, noNL post →
     k p (post ++ rest) = if delimitedAt kw p post then Some C else None) →
  ∀ L p, noNL L →
    matchStar CAnyNotNL p (L ++ rest) k
    = if delimitedFrom kw p L then Some C else None.
Proof.
  intros Hrest Hk. induction L as [|c L IH]; intros p HL.
  - cbn [app delimitedFrom]. rewrite orb_false_r.
    rewrite <- (Hk p [] HL). cbn [app].
    destruct rest as [|c rest]; [done|]. cbn in Hrest. cbn.
    by rewrite Hrest.
  - pose proof HL as HL'. apply noNL_cons in HL' as [Hc HL'].
    cbn [app matchStar classMatches delimitedFrom].
    rewrite (eqb_NL_false c Hc). cbn [negb].
    rewrite (IH (Some c) HL').
    destruct (delimitedFrom kw (Some c) L); [by rewrite orb_true_r|].
    rewrite orb_false_r. apply (Hk p (c :: L) HL).
Qed.

Lemma numSubexp_literals k tl :
  numSubexp (foldr RConcat tl (map (λ c, RChar (CLit true c)) k)) = numSubexp tl.
Proof. induction k as [|c k IH]; [done|]. cbn. exact IH. Qed.

Lemma numSubexp_lineWithKeyword k : numSubexp (lineWithKeyword k) = 1%nat.
Proof.
  unfold lineWithKeyword, concat. cbn [app foldr numSubexp].
  rewrite foldr_app, numSubexp_literals. reflexivity.
Qed.

(** The pattern of a keyword, tried at the start of a line: it matches when
    the line has the keyword behind a word boundary, and then the group is
    the whole line. *)
Lemma matchAt_line kw prev L rest :
  noNL kw → noNL L → atEndLine rest = true →
  matchAt (lineWithKeyword kw) prev (L ++ rest)
  = if atBeginLine prev && delimitedFrom kw prev L
    then Some (lineCaptures L) else None.
Proof.
  intros Hkw HL Hrest. unfold matchAt, lineWithKeyword, concat.
  cbn [matchRe app foldr]. destruct (atBeginLine prev); [|done]. cbn [andb].
  rewrite foldr_app. cbn [foldr].
  apply matchStar_scan; [done| |done].
  intros p post Hpost. unfold delimitedAt.
  rewrite (atWordBoundary_line _ _ _ Hrest).
  destruct (atWordBoundary p post); [|done]. cbn [andb].
  erewrite matchRe_literals; last first.
  { intros q t. cbn [matchRe]. apply (matchStar_prev _ _) with (p' := None).
    intros q1 q2 t'. reflexivity. }
  rewrite (foldPrefix_line _ _ Hkw Hrest).
  destruct (foldPrefix kw post) eqn:Hpre; [|done].
  apply foldPrefix_length in Hpre.
  rewrite drop_app_le by done.
  apply matchStar_to_eol; [done| |].
  - intros q. rewrite Hrest. unfold lineCaptures. do 2 f_equal.
    + rewrite length_app. replace (_ - _)%nat with (length L) by lia.
      by rewrite take_app_length.
    + f_equal. rewrite length_app. replace (_ - _)%nat with (length L) by lia.
      by rewrite take_app_length.
  - by apply Forall_drop.
Qed.

Lemma searchFrom_eq re prev s :
  searchFrom re prev s
  = match matchAt re prev s with
    | Some cs => Some cs
    | None => match s with
              | [] => None
              | c :: s' => searchFrom re (Some c) s'
              end
    end.
Proof. by destruct s. Qed.

Lemma matchAt_inside kw c s :
  c ≠ NL → matchAt (lineWithKeyword kw) (Some c) s = None.
Proof.
  intros Hc. unfold matchAt, lineWithKeyword. cbn [matchRe atBeginLine].
  by rewrite (eqb_NL_false c Hc).
Qed.

Lemma searchFrom_inside kw rest :
  atEndLine rest = true →
  ∀ L c, c ≠ NL → noNL L →
    searchFrom (lineWithKeyword kw) (Some c) (L ++ rest) = afterLine kw rest.
Proof.
  intros Hrest. induction L as [|d L IH]; intros c Hc HL.
  - cbn [app]. rewrite searchFrom_eq, matchAt_inside by done.
    destruct rest as [|r rest]; [done|]. cbn in Hrest.
    apply N.eqb_eq in Hrest as ->. done.
  - apply noNL_cons in HL as [Hd HL].
    cbn [app]. rewrite searchFrom_eq, matchAt_inside by done.
    by apply IH.
Qed.

Lemma searchFrom_line kw prev L rest :
  noNL kw → noNL L → atEndLine rest = true → atBeginLine prev = true →
  searchFrom (lineWithKeyword kw) prev (L ++ rest)
  = if hasKeyword kw L then Some (lineCaptures L) else afterLine kw rest.
Proof.
  intros Hkw HL Hrest Hprev.
  rewrite searchFrom_eq, matchAt_line, Hprev by done. cbn [andb].
  assert (Hw : isWordAt prev = isWordAt None).
  { destruct prev as [r|]; [|done]. cbn in Hprev.
    apply N.eqb_eq in Hprev as ->. done. }
  rewrite (delimitedFrom_prev kw prev None L Hw). fold (hasKeyword kw L).
  destruct (hasKeyword kw L); [done|].
  destruct L as [|c L].
  - cbn [app]. destruct rest as [|r rest]; [done|]. cbn in Hrest.
    apply N.eqb_eq in Hrest as ->. done.
  - apply noNL_cons in HL as [Hc HL]. cbn [app].
    by apply searchFrom_inside.
Qed.

(** A text is its first line and what comes behind it. *)
Lemma splitLines_first body :
  ∃ L rest, body = L ++ rest ∧ noNL L ∧ atEndLine rest = true ∧
    splitLines body
    = L :: match rest with [] => [] | _ :: b => splitLines b end.
Proof.
  induction body as [|c body (L & rest & -> & HL & Hrest & Hs)].
  - exists [], []. repeat split; constructor.
  - cbn [splitLines]. destruct (c =? NL) eqn:Hc.
    + exists [], (c :: L ++ rest). cbn. rewrite Hc. repeat split. constructor.
    + exists (c :: L), rest. rewrite Hs. repeat split; [|done].
      apply noNL_cons. split; [|done]. by apply N.eqb_neq.
Qed.

Lemma splitLines_noNL body : Forall noNL (splitLines body).
Proof.
  induction body as [|c body IH]; cbn.
  - repeat constructor.
  - destruct (c =? NL) eqn:Hc.
    + constructor; [constructor | done].
    + destruct (splitLines body) as [|l ls]; [repeat constructor; by apply N.eqb_neq|].
      apply Forall_cons in IH as [Hl Hls]. constructor; [|done].
      apply noNL_cons. split; [by apply N.eqb_neq | done].
Qed.

(** The search reports the first line that has the keyword. *)
Lemma searchFrom_lines_below kw :
  noNL kw →
  ∀ n body prev, (length body < n)%nat → atBeginLine prev = true →
    searchFrom (lineWithKeyword kw) prev body
    = lineCaptures <$> List.find (hasKeyword kw) (splitLines body).
Proof.
  intros Hkw. induction n as [|n IH]; intros body prev Hn Hprev; [lia|].
  destruct (splitLines_first body) as (L & rest & -> & HL & Hrest & Hs).
  rewrite searchFrom_line, Hs by done. cbn [List.find].
  destruct (hasKeyword kw L); [done|].
  destruct rest as [|r rest]; [done|]. cbn [afterLine].
  apply IH; [|done]. rewrite length_app in Hn. cbn in Hn. lia.
Qed.

Lemma FindStringSubmatch_lineWithKeyword kw body :
  noNL kw →
  FindStringSubmatch (lineWithKeyword kw) body
  = (λ L, [L; L]) <$> List.find (hasKeyword kw) (splitLines body).
Proof.
  intros Hkw. unfold FindStringSubmatch.
  rewrite (searchFrom_lines_below kw Hkw (S (length body))) by (done || lia).
  rewrite numSubexp_lineWithKeyword.
  destruct (List.find _ _); done.
Qed.

Lemma FindStringSubmatch_length re body s :
  FindStringSubmatch re body = Some s → length s = S (numSubexp re).
Proof.
  unfold FindStringSubmatch.
  destruct (searchFrom re None body); cbn [mbind option_bind]; [|done].
  intros [= <-]. cbn [length]. by rewrite length_map, length_seq.
Qed.

Lemma hasKeyword_noNL kw L : hasKeyword kw L = true → noNL L → noNL kw.
Proof. apply delimitedFrom_noNL. Qed.

End MatcherFacts.

(** ** checkKeywords *)

Section EngineFacts.
Context `{CaseFolding}.

Lemma compiled_empty : compiled ∅.
Proof. intros k v Hk. by rewrite lookup_empty in Hk. Qed.

(** One round of the loop of [main] over the keywords. *)
Lemma compileKeywords_cons k ks m0 :
  compileKeywords (k :: ks) m0
  = if fits (Keyword k)
    then compileKeywords ks
           (<[Keyword k := {| regexp := Some (lineWithKeyword (Keyword k));
                              exceptions := Exceptions k |}]> m0)
    else None.
Proof.
  cbn [compileKeywords]. unfold MustCompile. rewrite Compile_keywordPattern.
  by destruct (fits (Keyword k)).
Qed.

Lemma compileKeywords_compiled ks : ∀ m0 m,
  compiled m0 → compileKeywords ks m0 = Some m → compiled m.
Proof.
  induction ks as [|k ks IH]; intros m0 m Hm0 Hc.
  - cbn [compileKeywords] in Hc. by simplify_eq.
  - rewrite compileKeywords_cons in Hc.
    destruct (fits (Keyword k)); [|done].
    eapply IH; [|done]. intros k' v'. rewrite lookup_insert.
    case_decide as Hk; [|apply Hm0].
    intros [= <-]. by subst k'.
Qed.

(** The loop of [main] gets through exactly when every keyword is within
    the limit of the parser. *)
Lemma compileKeywords_is_Some ks : ∀ m0,
  is_Some (compileKeywords ks m0) ↔ allFit ks = true.
Proof.
  induction ks as [|k ks IH]; intros m0.
  - cbn [compileKeywords allFit forallb]. split; [done | by eexists].
  - rewrite compileKeywords_cons. cbn [allFit forallb].
    destruct (fits (Keyword k)); cbn [andb].
    + apply IH.
    + split; [by intros [? ?] | done].
Qed.

Lemma compileKeywords_fit ks :
  allFit ks = true → ∃ m, compileKeywords ks ∅ = Some m ∧ compiled m.
Proof.
  intros Hfit. apply (compileKeywords_is_Some ks ∅) in Hfit as [m Hm].
  exists m. split; [done|]. by apply (compileKeywords_compiled ks ∅ m compiled_empty).
Qed.

(** Where an entry of the compiled table comes from. *)
Lemma compileKeywords_lookup ks : ∀ m0 m K v,
  compileKeywords ks m0 = Some m → m !! K = Some v →
  m0 !! K = Some v ∨
  ∃ k, k ∈ ks ∧ Keyword k = K ∧ Exceptions k = exceptions v.
Proof.
  induction ks as [|k ks IH]; intros m0 m K v Hc HK.
  - cbn [compileKeywords] in Hc. left. by simplify_eq.
  - rewrite compileKeywords_cons in Hc.
    destruct (fits (Keyword k)); [|done].
    destruct (IH _ _ K v Hc HK) as [Hin|(k' & Hin & Hk & He)].
    + rewrite lookup_insert in Hin. case_decide as Hk.
      * right. exists k. split_and!; [left | done |]. by simplify_eq.
      * by left.
    + right. exists k'. split_and!; [by right | done..].
Qed.

Lemma checkKeyword_hit body st found k v :
  regexp v = Some (lineWithKeyword k) →
  checkKeyword body (st, found) (k, v)
  = Some match keywordHit body v with
         | Some m => (true, <[k := m]> found)
         | None => (st, found)
         end.
Proof.
  intros Hre. unfold checkKeyword, keywordHit. rewrite Hre.
  cbn [mbind option_bind].
  destruct (FindStringSubmatch (lineWithKeyword k) body) as [s|] eqn:Hs; [|done].
  apply FindStringSubmatch_length in Hs.
  rewrite numSubexp_lineWithKeyword in Hs.
  destruct s as [|s0 [|s1 s]]; [done..|]. cbn.
  by destruct (checkExceptions (TrimSpace s1) (exceptions v)).
Qed.

Lemma rangeKeywords_acc body : ∀ entries st found,
  NoDup entries.*1 →
  (∀ k v, (k, v) ∈ entries → regexp v = Some (lineWithKeyword k)) →
  ∃ st' found',
    rangeKeywords entries body (st, found) = Some (st', found') ∧
    (∀ k v, (k, v) ∈ entries →
       found' !! k = match keywordHit body v with
                     | Some m => Some m
                     | None => found !! k
                     end) ∧
    (∀ k, k ∉ entries.*1 → found' !! k = found !! k) ∧
    st' = st || existsb (isHit body) entries.
Proof.
  induction entries as [|[k0 v0] rest IH]; intros st found Hnd Hre.
  - exists st, found. cbn. rewrite orb_false_r. split_and!; try done.
    intros k v Hin. by apply elem_of_nil in Hin.
  - cbn [fmap list_fmap fst] in Hnd. apply NoDup_cons in Hnd as [Hk0 Hnd].
    cbn [rangeKeywords]. rewrite checkKeyword_hit by (apply Hre; left).
    cbn [mbind option_bind].
    set (acc := match keywordHit body v0 with
                | Some m => (true, <[k0:=m]> found)
                | None => (st, found)
                end).
    destruct (IH acc.1 acc.2 Hnd) as (st' & found' & Hrun & Hin & Hout & Hst).
    { intros k v Hkv. apply Hre. by right. }
    exists st', found'. replace acc with (acc.1, acc.2) by by destruct acc.
    split; [done|]. 
    assert (Hother : ∀ k, k ≠ k0 → acc.2 !! k = found !! k).
    { intros k Hk. unfold acc. destruct (keywordHit body v0); [|done].
      cbn. by rewrite lookup_insert_ne. }
    split_and!.
    + intros k v Hkv. apply elem_of_cons in Hkv as [[= -> ->]|Hkv].
      * rewrite Hout by done. unfold acc.
        destruct (keywordHit body v0); [|done]. cbn. by rewrite lookup_insert_eq.
      * rewrite (Hin k v Hkv), Hother; [done|].
        intros ->. apply Hk0. apply list_elem_of_fmap. by exists (k0, v).
    + intros k Hk. cbn [fmap list_fmap fst] in Hk.
      apply not_elem_of_cons in Hk as [Hk Hk'].
      by rewrite Hout, Hother.
    + rewrite Hst. cbn [existsb]. unfold isHit at 2. cbn [snd]. unfold acc.
      destruct (keywordHit body v0); cbn; [|done]. by rewrite orb_true_r.
Qed.

(** [checkKeywords] in one formula: the hits are the entries whose pattern
    finds a line that no exception suppresses; the status tells whether
    there is one; the order of the iteration has no influence. *)
Lemma rangeKeywords_spec m entries body :
  compiled m → entries ≡ₚ map_to_list m →
  rangeKeywords entries body (false, ∅)
  = Some (existsb (isHit body) entries, omap (keywordHit body) m).
Proof.
  intros Hm Hperm.
  assert (Hin : ∀ k v, (k, v) ∈ entries ↔ m !! k = Some v).
  { intros k v. rewrite Hperm. apply elem_of_map_to_list. }
  destruct (rangeKeywords_acc body entries false ∅)
    as (st' & found' & -> & Hhit & Hout & ->).
  { rewrite Hperm. apply NoDup_fst_map_to_list. }
  { intros k v Hkv. apply Hm. by apply Hin. }
  do 2 f_equal. apply map_eq. intros k. rewrite lookup_omap.
  destruct (m !! k) as [v|] eqn:Hk; cbn.
  - rewrite (Hhit k v) by by apply Hin.
    destruct (keywordHit body v); [done|]. apply lookup_empty.
  - rewrite Hout; [apply lookup_empty|].
    intros Hk'. apply list_elem_of_fmap in Hk' as ([k' v] & -> & Hkv).
    apply Hin in Hkv. cbn in Hk. congruence.
Qed.

Lemma existsb_isHit m entries body :
  entries ≡ₚ map_to_list m →
  existsb (isHit body) entries = true ↔ omap (keywordHit body) m ≠ ∅.
Proof.
  intros Hperm. rewrite existsb_exists. split.
  - intros ([k v] & Hin & Hhit). apply list_elem_of_In in Hin.
    rewrite Hperm in Hin. apply elem_of_map_to_list in Hin.
    intros Hempty. apply (f_equal (lookup k)) in Hempty.
    rewrite lookup_omap, Hin, lookup_empty in Hempty. cbn in Hempty.
    unfold isHit in Hhit. cbn in Hhit. by rewrite Hempty in Hhit.
  - intros Hne. apply map_choose in Hne as (k & x & Hk).
    apply lookup_omap_Some in Hk as (v & Hv & Hk).
    exists (k, v). split.
    + apply list_elem_of_In. rewrite Hperm. by apply elem_of_map_to_list.
    + unfold isHit. cbn. by rewrite Hv.
Qed.

Lemma find_first {A} (P : A → bool) before x after :
  Forall (λ y, P y = false) before → P x = true →
  List.find P (before ++ x :: after) = Some x.
Proof.
  intros Hb Hx. induction Hb as [|y before Hy Hb IH]; cbn.
  - by rewrite Hx.
  - by rewrite Hy.
Qed.

(** The hit of a compiled entry, in terms of the lines of the body. *)
Lemma keywordHit_first_line body k v before L after :
  regexp v = Some (lineWithKeyword k) →
  splitLines body = before ++ L :: after →
  Forall (λ l, hasKeyword k l = false) before →
  hasKeyword k L = true →
  keywordHit body v
  = if checkExceptions (TrimSpace L) (exceptions v) then None
    else Some (TrimSpace L).
Proof.
  intros Hre Hsplit Hbefore HL.
  assert (Hk : noNL k).
  { apply (hasKeyword_noNL k L HL).
    pose proof (splitLines_noNL body) as Hall. rewrite Hsplit in Hall.
    apply Forall_app in Hall as [_ Hall]. by apply Forall_cons in Hall as [? _]. }
  unfold keywordHit. rewrite Hre. cbn [mbind option_bind].
  rewrite FindStringSubmatch_lineWithKeyword, Hsplit, find_first by done.
  reflexivity.
Qed.

Lemma keywordHit_no_line body k v :
  regexp v = Some (lineWithKeyword k) → noNL k →
  Forall (λ l, hasKeyword k l = false) (splitLines body) →
  keywordHit body v = None.
Proof.
  intros Hre Hk Hall. unfold keywordHit. rewrite Hre. cbn [mbind option_bind].
  rewrite FindStringSubmatch_lineWithKeyword by done.
  destruct (List.find _ _) as [L|] eqn:Hfind; [|done].
  apply find_some in Hfind as [Hin HL]. apply list_elem_of_In in Hin.
  rewrite Forall_forall in Hall. apply Hall in Hin. congruence.
Qed.

Lemma HasPrefix_spec p : ∀ s, HasPrefix s p = true ↔ ∃ b, s = p ++ b.
Proof.
  induction p as [|x p IH]; intros s; cbn.
  - split; [by exists s | done].
  - destruct s as [|c s].
    + split; [done | by intros (b & ?)].
    + rewrite andb_true_iff, N.eqb_eq, IH. split.
      * intros (-> & b & ->). by exists b.
      * intros (b & [= -> ->]). split; [done | by exists b].
Qed.

Lemma Contains_spec sub : ∀ s, Contains s sub = true ↔ ∃ a b, s = a ++ sub ++ b.
Proof.
  induction s as [|c s IH]; cbn [Contains]; rewrite orb_true_iff, HasPrefix_spec.
  - split.
    + intros [(b & Hb)|?]; [|done]. by exists [], b.
    + intros (a & b & Hab). left. destruct a; [by exists b|done].
  - rewrite IH. split.
    + intros [(b & Hb)|(a & b & ->)]; [by exists [], b | by exists (c :: a), b].
    + intros ([|c' a] & b & Hab); [left; by exists b|].
      right. injection Hab as -> ->. by exists a, b.
Qed.

Lemma checkExceptions_spec s excs :
  checkExceptions s excs = true ↔ ∃ x a b, x ∈ excs ∧ s = a ++ x ++ b.
Proof.
  induction excs as [|x excs IH]; cbn [checkExceptions].
  - split; [done|]. intros (x & a & b & Hx & _). by apply elem_of_nil in Hx.
  - destruct (Contains s x) eqn:Hc.
    + apply Contains_spec in Hc as (a & b & ->). split; [|done].
      intros _. exists x, a, b. split; [left | done].
    + rewrite IH. split.
      * intros (y & a & b & Hy & ->). exists y, a, b. split; [by right | done].
      * intros (y & a & b & Hy & ->). apply elem_of_cons in Hy as [->|Hy].
        -- assert (Contains (a ++ x ++ b) x = true) by (apply Contains_spec; eauto).
           congruence.
        -- by exists y, a, b.
Qed.

Lemma foldPrefix_spec k : ∀ s,
  foldPrefix k s = true ↔
  ∃ mid post, s = mid ++ post ∧ Forall2 (λ c r, foldEq c r = true) k mid.
Proof.
  induction k as [|c k IH]; intros s; cbn [foldPrefix].
  - split; [|done]. intros _. exists [], s. split; [done | constructor].
  - destruct s as [|r s].
    + split; [done|]. intros (mid & post & Hs & Hf).
      inversion Hf; subst. done.
    + rewrite andb_true_iff, IH. split.
      * intros (Hcr & mid & post & -> & Hf). exists (r :: mid), post.
        split; [done | by constructor].
      * intros (mid & post & Hs & Hf). inversion Hf as [|? r' ? mid' Hcr Hf']; subst.
        injection Hs as -> ->. split; [done | by exists mid', post].
Qed.

Lemma delimitedFrom_spec k : ∀ s p,
  delimitedFrom k p s = true ↔
  ∃ pre mid post, s = pre ++ mid ++ post ∧
    Forall2 (λ c r, foldEq c r = true) k mid ∧
    atWordBoundary (before p pre) (mid ++ post) = true.
Proof.
  induction s as [|c s IH]; intros p; cbn [delimitedFrom].
  - rewrite orb_false_r. unfold delimitedAt.
    rewrite andb_true_iff, foldPrefix_spec. split.
    + intros (Hb & mid & post & Hs & Hf). exists [], mid, post.
      split_and!; [done..|]. cbn. by rewrite <- Hs.
    + intros (pre & mid & post & Hs & Hf & Hb).
      destruct pre; [|done]. cbn in Hs, Hb. rewrite <- Hs in Hb.
      split; [done | by exists mid, post].
  - rewrite orb_true_iff, IH. unfold delimitedAt.
    rewrite andb_true_iff, foldPrefix_spec. split.
    + intros [(Hb & mid & post & Hs & Hf)|(pre & mid & post & -> & Hf & Hb)].
      * exists [], mid, post. split_and!; [done..|]. cbn. by rewrite <- Hs.
      * exists (c :: pre), mid, post. split_and!; [done..|].
        unfold before in *. rewrite last_cons. by destruct (last pre).
    + intros ([|c' pre] & mid & post & Hs & Hf & Hb).
      * left. cbn in Hs, Hb. rewrite <- Hs in Hb. split; [done | by exists mid, post].
      * right. injection Hs as -> ->. exists pre, mid, post. split_and!; [done..|].
        unfold before in *. rewrite last_cons in Hb. by destruct (last pre).
Qed.

(** A line has the keyword when it has a stretch that the keyword accepts
    rune by rune, up to case, and a word boundary right before it. *)
Lemma hasKeyword_spec k L :
  hasKeyword k L = true ↔
  ∃ pre mid post, L = pre ++ mid ++ post ∧
    Forall2 (λ c r, foldEq c r = true) k mid ∧
    xorb (isWordAt (last pre)) (isWordAt (head (mid ++ post))) = true.
Proof.
  unfold hasKeyword. rewrite delimitedFrom_spec.
  assert (Hb : ∀ pre, before None pre = last pre).
  { intros pre. unfold before. by destruct (last pre). }
  by setoid_rewrite Hb.
Qed.

End EngineFacts.

(** ** The matching engine: the properties of the design *)

(** C1 (as amended): for every keyword K of the compiled table, with the
    exception list the configuration gives it, and every body, let L be the
    first line of the body that contains K as a delimited substring.  If L, trimmed, contains none of the exceptions of K, then
    checkKeywords reports a hit and records exactly the trimmed L for K; if
    it contains one, nothing is recorded for K.  The order in which the
    table is iterated makes no difference. *)
Theorem checkKeywords_first_line `{CaseFolding}
    (config : configuration) (keywordsRegex : gmap (list N) keywordRegexType)
    (K : gostring) (v : keywordRegexType)
    (body : gostring) (earlier : list gostring) (L : gostring)
    (later : list gostring) :
  compileKeywords (Keywords config) ∅ = Some keywordsRegex →
  keywordsRegex !! K = Some v →
  splitLines body = earlier ++ L :: later →
  Forall (λ l, hasKeyword K l = false) earlier →
  hasKeyword K L = true →
  (∃ k, k ∈ Keywords config ∧ Keyword k = K ∧ Exceptions k = exceptions v) ∧
  ∃ status found,
    checkKeywords keywordsRegex body = Some (status, found) ∧
    (∀ entries, entries ≡ₚ map_to_list keywordsRegex →
       rangeKeywords entries body (false, ∅) = Some (status, found)) ∧
    (checkExceptions (TrimSpace L) (exceptions v) = false →
       status = true ∧ found !! K = Some (TrimSpace L)) ∧
    (checkExceptions (TrimSpace L) (exceptions v) = true →
       found !! K = None).
Proof.
  intros Hcompile HK Hsplit Hearlier HL. split.
  { destruct (compileKeywords_lookup _ ∅ keywordsRegex K v Hcompile HK)
      as [Hin|Hin]; [by rewrite lookup_empty in Hin | done]. }
  pose proof (compileKeywords_compiled (Keywords config) ∅ keywordsRegex
                compiled_empty Hcompile) as Hcomp.
  pose proof (keywordHit_first_line body K v earlier L later
                (Hcomp K v HK) Hsplit Hearlier HL) as Hhit.
  exists (existsb (isHit body) (map_to_list keywordsRegex)),
         (omap (keywordHit body) keywordsRegex).
  split_and!.
  - by apply rangeKeywords_spec.
  - intros entries Hperm. rewrite (rangeKeywords_spec keywordsRegex) by done.
    do 2 f_equal. apply eq_true_iff_eq.
    by rewrite !(existsb_isHit keywordsRegex).
  - intros Hex. rewrite Hex in Hhit. split.
    + apply (existsb_isHit keywordsRegex); [done|].
      intros Hempty. apply (f_equal (lookup K)) in Hempty.
      rewrite lookup_omap, HK, lookup_empty in Hempty. cbn in Hempty. congruence.
    + by rewrite lookup_omap, HK.
  - intros Hex. rewrite Hex in Hhit. by rewrite lookup_omap, HK.
Qed.

Lemma checkKeywords_first_line_witness :
  ∃ status found,
    checkKeywords {[ runes "password" :=
                       {| regexp := Some (lineWithKeyword (runes "password"));
                          exceptions := [runes "testpassword"] |} ]}
      (runes "user: admin" ++ [NL] ++ runes "  password: hunter2 " ++ [NL]
       ++ runes "password: testpassword")
    = Some (status, found) ∧
    status = true ∧
    found !! runes "password" = Some (runes "password: hunter2").
Proof.
  destruct (checkKeywords_first_line
              {| Keywords := [passwordKeyword]; Mailonerror := false |}
              {[ runes "password" :=
                   {| regexp := Some (lineWithKeyword (runes "password"));
                      exceptions := [runes "testpassword"] |} ]}
              (runes "password")
              {| regexp := Some (lineWithKeyword (runes "password"));
                 exceptions := [runes "testpassword"] |}
              (runes "user: admin" ++ [NL] ++ runes "  password: hunter2 "
               ++ [NL] ++ runes "password: testpassword")
              [runes "user: admin"] (runes "  password: hunter2 ")
              [runes "password: testpassword"])
    as (_ & status & found & Hrun & _ & Hhit & _).
  - vm_compute. reflexivity.
  - vm_compute. reflexivity.
  - vm_compute. reflexivity.
  - repeat constructor.
  - vm_compute. reflexivity.
  - exists status, found. split; [exact Hrun|]. apply Hhit. vm_compute. reflexivity.
Defined.

(** C1 (as stated) fails: a body whose second line has the keyword and no
    exception, behind a first line that has the keyword and an exception,
    yields no hit at all. *)
Lemma checkKeywords_any_line_counterexample :
  let K := runes "password" in
  let excs := [runes "testpassword"] in
  let body := runes "password: testpassword" ++ [NL] ++ runes "password: hunter2" in
  let L := runes "password: hunter2" in
  ∃ keywordsRegex,
    compileKeywords [{| Keyword := K; Exceptions := excs |}] ∅ = Some keywordsRegex ∧
    In L (splitLines body) ∧
    hasKeyword K L = true ∧
    checkExceptions (TrimSpace L) excs = false ∧
    checkKeywords keywordsRegex body = Some (false, ∅) ∧
    (∅ : gmap (list N) (list N)) !! K ≠ Some (TrimSpace L).
Proof.
  cbv zeta. eexists. split; [vm_compute; reflexivity|].
  split_and!; try (vm_compute; reflexivity).
  - vm_compute. tauto.
  - by rewrite lookup_empty.
Qed.

(** C7: with the keyword "password" and the exception "testpassword", the
    body "user: admin / password: testpassword123 /" gives no hit, and the
    body "password: hunter2 /" gives exactly the hit that maps "password" to
    "password: hunter2". *)
Theorem scenario_password :
  ∃ keywordsRegex,
    compileKeywords [passwordKeyword] ∅ = Some keywordsRegex ∧
    checkKeywords keywordsRegex
      (runes "user: admin" ++ [NL] ++ runes "password: testpassword123" ++ [NL])
    = Some (false, ∅) ∧
    checkKeywords keywordsRegex (runes "password: hunter2" ++ [NL])
    = Some (true, {[ runes "password" := runes "password: hunter2" ]}).
Proof.
  eexists. split; [vm_compute; reflexivity|].
  split; vm_compute; reflexivity.
Qed.

(** C8 (as amended): compiling the pattern of a keyword succeeds exactly
    when the keyword has at most 33554432 runes, and a list of keywords
    compiles exactly when each of them does; the result then is the
    case-insensitive, multi-line pattern with one group around the whole
    line in which every rune of the keyword is a literal; it finds the first
    line that has the keyword behind a word boundary and captures that line
    whole.  For a longer keyword the compilation panics. *)
Theorem keyword_pattern_literal :
  (∀ ks m0, is_Some (compileKeywords ks m0) ↔ allFit ks = true) ∧
  (∀ kw, MustCompile (keywordPattern kw)
         = if fits kw then Some (lineWithKeyword kw) else None) ∧
  (∀ `{CaseFolding} kw body,
     noNL kw →
     FindStringSubmatch (lineWithKeyword kw) body
     = (λ L, [L; L]) <$> List.find (hasKeyword kw) (splitLines body)) ∧
  (∀ `{CaseFolding} kw L,
     hasKeyword kw L = true ↔
     ∃ pre mid post, L = pre ++ mid ++ post ∧
       Forall2 (λ c r, foldEq c r = true) kw mid ∧
       xorb (isWordAt (last pre)) (isWordAt (head (mid ++ post))) = true).
Proof.
  split_and!.
  - apply compileKeywords_is_Some.
  - apply Compile_keywordPattern.
  - intros F kw body Hkw. by apply FindStringSubmatch_lineWithKeyword.
  - intros F kw L. apply hasKeyword_spec.
Qed.

Lemma keyword_pattern_literal_witness :
  noNL (runes "a.b*") ∧
  MustCompile (keywordPattern (runes "a.b*")) = Some (lineWithKeyword (runes "a.b*")) ∧
  FindStringSubmatch (lineWithKeyword (runes "a.b*"))
    (runes "aXb" ++ [NL] ++ runes "see A.B* here" ++ [NL])
  = Some [runes "see A.B* here"; runes "see A.B* here"].
Proof.
  assert (Hk : noNL (runes "a.b*")) by (repeat constructor; done).
  split; [exact Hk|].
  destruct keyword_pattern_literal as (_ & Hcompile & Hfind & _).
  split; [by rewrite Hcompile|].
  rewrite (Hfind asciiFold _ _ Hk). vm_compute. reflexivity.
Defined.

(** C8 (as stated) fails: the pattern of a keyword of 33554433 runes, one
    more than the parser accepts, does not compile, and neither does a list
    of keywords that holds it. *)
Lemma keyword_too_large_counterexample :
  let kw := repeat 97 (N.to_nat 33554433) in
  MustCompile (keywordPattern kw) = None ∧
  compileKeywords [{| Keyword := kw; Exceptions := [] |}] ∅ = None.
Proof.
  cbv zeta.
  assert (Hbig : fits (repeat 97 (N.to_nat 33554433)) = false).
  { unfold fits. rewrite repeat_length, N2Nat.id. reflexivity. }
  split.
  - apply MustCompile_too_large. exact Hbig.
  - cbn [compileKeywords Keyword].
    rewrite (MustCompile_too_large _ Hbig). reflexivity.
Qed.


(** ** The poll loop *)

Section LoopFacts.
Import PollLoop.
Local Open Scope Z_scope.

Context {paste World : Type}.
Variable Key : paste → list N.
Variable now : World → Z.
Variable sleep : Z → World → World.
Variable terminate : World → bool.
Variable listEndpoint : World → (list paste + list N) * World.
Variable fetch : paste → globals → World → option (list N) * globals * World.

Local Abbreviation rangePastes := (PollLoop.rangePastes Key sleep terminate fetch).
Local Abbreviation pollCycle :=
  (PollLoop.pollCycle Key now sleep terminate listEndpoint fetch).
Local Abbreviation mainLoop :=
  (PollLoop.mainLoop Key now sleep terminate listEndpoint fetch).

Lemma rangePastes_cached p rest (r : run paste World) v :
  terminate (world r) = false →
  alredyChecked (gl r) !! Key p = Some v →
  rangePastes (p :: rest) r = rangePastes rest r.
Proof. intros Ht Hc. cbn [PollLoop.rangePastes]. by rewrite Ht, Hc. Qed.

Lemma rangePastes_fresh p rest (r : run paste World) :
  terminate (world r) = false →
  alredyChecked (gl r) !! Key p = None →
  rangePastes (p :: rest) r
  = rangePastes rest
      {| gl := (fetch p (gl r) (world r)).1.2;
         world := sleep (1 * second) (fetch p (gl r) (world r)).2;
         trace := trace r ++ fetchEvents p (fetch p (gl r) (world r)).1.1 |}.
Proof.
  intros Ht Hc. cbn [PollLoop.rangePastes]. rewrite Ht, Hc.
  destruct (fetch p (gl r) (world r)) as [[err g] w]. cbn [fst snd].
  f_equal. unfold timeSleep, reportIf, sendError, fetchEvents.
  destruct err; cbn [gl world trace]; f_equal; by rewrite <- !app_assoc.
Qed.

Lemma rangePastes_all_cached ps : ∀ r : run paste World,
  Forall (λ p, is_Some (alredyChecked (gl r) !! Key p)) ps →
  rangePastes ps r = r.
Proof.
  induction ps as [|p ps IH]; intros r Hall; [done|].
  apply Forall_cons in Hall as [[v Hp] Hall].
  cbn [PollLoop.rangePastes]. destruct (terminate _); [done|].
  rewrite Hp. by apply IH.
Qed.

(** The events of a run of the loop over the items: every fetch is paired
    with one sleep of a second, and only listed items are fetched. *)
Lemma rangePastes_trace ps : ∀ r : run paste World,
  ∃ evs,
    trace (rangePastes ps r) = trace r ++ evs ∧
    length (List.filter isFetch evs)
    = length (List.filter (isSleepOf (1 * second)) evs) ∧
    (∀ p, EvFetch p ∈ evs → p ∈ ps).
Proof.
  induction ps as [|p ps IH]; intros r.
  - exists []. cbn. rewrite app_nil_r. split_and!; [done..|].
    intros p Hp. by apply elem_of_nil in Hp.
  - destruct (terminate (world r)) eqn:Ht.
    { exists []. cbn [PollLoop.rangePastes]. rewrite Ht, app_nil_r.
      split_and!; [done..|]. intros q Hq. by apply elem_of_nil in Hq. }
    destruct (alredyChecked (gl r) !! Key p) as [v|] eqn:Hc.
    + rewrite (rangePastes_cached p ps r v Ht Hc).
      destruct (IH r) as (evs & Htr & Hcount & Hin).
      exists evs. split_and!; [done..|]. intros q Hq. right. by apply Hin.
    + rewrite (rangePastes_fresh p ps r Ht Hc).
      match goal with |- context [PollLoop.rangePastes _ _ _ _ ps ?r'] =>
        destruct (IH r') as (evs & Htr & Hcount & Hin) end.
      cbn [trace] in Htr.
      exists (fetchEvents p (fetch p (gl r) (world r)).1.1 ++ evs).
      rewrite Htr, <- app_assoc. split_and!; [done| |].
      * rewrite !List.filter_app, !length_app, Hcount. f_equal.
        unfold fetchEvents. by destruct (fetch p _ _).1.1.
      * intros q Hq. apply elem_of_app in Hq as [Hq|Hq]; [|right; by apply Hin].
        unfold fetchEvents in Hq.
        destruct (fetch p _ _).1.1; cbn in Hq;
          repeat (apply elem_of_cons in Hq as [Hq|Hq]; [try done|]);
          try (by apply elem_of_nil in Hq); injection Hq as ->; left.
Qed.

(** *** The expiry sweep *)

Lemma rangeExpire_lookup entries threshold : ∀ (m : gmap (list N) Z) k,
  rangeExpire entries threshold m !! k
  = if existsb (λ kv, bool_decide (kv.1 = k) && (kv.2 <? threshold)) entries
    then None else m !! k.
Proof.
  induction entries as [|[k0 v0] rest IH]; intros m k; [done|].
  cbn [rangeExpire existsb fst snd]. rewrite IH.
  destruct (existsb _ rest); [by rewrite orb_true_r|]. rewrite orb_false_r.
  destruct (v0 <? threshold); [|by rewrite andb_false_r].
  rewrite andb_true_r. case_bool_decide as Hk.
  - subst. apply lookup_delete_eq.
  - by apply lookup_delete_ne.
Qed.

(** The sweep keeps exactly the entries that are not older than the
    threshold, in whatever order the entries are visited. *)
Lemma rangeExpire_spec (m : gmap (list N) Z) entries threshold k :
  entries ≡ₚ map_to_list m →
  rangeExpire entries threshold m !! k
  = match m !! k with
    | Some v => if v <? threshold then None else Some v
    | None => None
    end.
Proof.
  intros Hperm. rewrite rangeExpire_lookup.
  destruct (existsb _ entries) eqn:Hex.
  - apply existsb_exists in Hex as ([k' v] & Hin & Hkv).
    apply list_elem_of_In in Hin. rewrite Hperm in Hin.
    apply elem_of_map_to_list in Hin. cbn in Hkv.
    apply andb_true_iff in Hkv as [Hk Hv]. apply bool_decide_eq_true in Hk as ->.
    by rewrite Hin, Hv.
  - destruct (m !! k) as [v|] eqn:Hk; [|done].
    destruct (v <? threshold) eqn:Hv; [|done].
    assert (existsb (λ kv : list N * Z,
              bool_decide (kv.1 = k) && (kv.2 <? threshold)) entries = true)
      as Hex'; [|congruence].
    apply existsb_exists. exists (k, v). split.
    + apply list_elem_of_In. rewrite Hperm. by apply elem_of_map_to_list.
    + cbn. by rewrite bool_decide_eq_true_2, Hv.
Qed.

Lemma cleanUp_lookup (r : run paste World) k :
  alredyChecked (gl (cleanUp now r)) !! k
  = match alredyChecked (gl r) !! k with
    | Some v => if v <? now (world r) - 10 * minute then None else Some v
    | None => None
    end.
Proof.
  unfold cleanUp. cbn [gl alredyChecked].
  rewrite rangeExpire_spec by done.
  by replace (now (world r) + -10 * minute) with (now (world r) - 10 * minute) by lia.
Qed.

Lemma idle_gl (r : run paste World) : gl (idle now sleep r) = gl r.
Proof. unfold idle. by destruct (0 <? _). Qed.

Lemma idle_trace (r : run paste World) :
  ∃ evs, trace (idle now sleep r) = trace r ++ evs ∧
         Forall (λ ev, isFetch ev = false) evs.
Proof.
  unfold idle. destruct (0 <? _).
  - eexists. split; [reflexivity|]. by repeat constructor.
  - exists []. by rewrite app_nil_r.
Qed.

(** C3: an item whose key is in [alredyChecked] when the loop reaches it is
    passed over: the run goes on as if the item were not in the list, so
    nothing is fetched and no second is slept for it.  An item whose key is
    not there, reached while [terminate] is not set, is fetched; a failure
    is reported; one second is slept whether the fetch failed or not.  When
    all listed items are cached, nothing happens at all; in every run the
    fetches and the one-second sleeps pair up. *)
Theorem rangePastes_skips_cached p rest (r : run paste World) :
  (is_Some (alredyChecked (gl r) !! Key p) →
     rangePastes (p :: rest) r = rangePastes rest r) ∧
  (alredyChecked (gl r) !! Key p = None → terminate (world r) = false →
     ∃ err g w,
       fetch p (gl r) (world r) = (err, g, w) ∧
       rangePastes (p :: rest) r
       = rangePastes rest
           {| gl := g; world := sleep (1 * second) w;
              trace := trace r ++ fetchEvents p err |}) ∧
  (∀ ps, Forall (λ q, is_Some (alredyChecked (gl r) !! Key q)) ps →
     rangePastes ps r = r) ∧
  (∀ ps, ∃ evs,
     trace (rangePastes ps r) = trace r ++ evs ∧
     length (List.filter isFetch evs)
     = length (List.filter (isSleepOf (1 * second)) evs) ∧
     (∀ q, EvFetch q ∈ evs → q ∈ ps)).
Proof.
  split_and!.
  - intros [v Hv]. destruct (terminate (world r)) eqn:Ht.
    + cbn [PollLoop.rangePastes]. rewrite Ht.
      destruct rest; cbn [PollLoop.rangePastes]; by rewrite ?Ht.
    + by eapply rangePastes_cached.
  - intros Hc Ht. destruct (fetch p (gl r) (world r)) as [[err g] w] eqn:Hf.
    exists err, g, w. split; [done|].
    rewrite rangePastes_fresh by done. by rewrite Hf.
  - intros ps. apply rangePastes_all_cached.
  - intros ps. apply rangePastes_trace.
Qed.

(** C4: the sweep at the end of a cycle removes exactly the entries whose
    time stamp lies more than ten minutes before the current time; the
    others stay as they are, whatever the order of the iteration; the sweep
    touches nothing else; a key whose entry was removed is fetched again
    when it is listed next; at the end of every cycle no entry older than
    ten minutes is left. *)
Theorem cleanUp_expires (r : run paste World) :
  let threshold := now (world r) - 10 * minute in
  let r' := cleanUp now r in
  world r' = world r ∧ trace r' = trace r ∧
  lastCheck (gl r') = lastCheck (gl r) ∧
  (∀ k v, alredyChecked (gl r') !! k = Some v ↔
          alredyChecked (gl r) !! k = Some v ∧ threshold ≤ v) ∧
  (∀ k v, alredyChecked (gl r) !! k = Some v → v < threshold →
          alredyChecked (gl r') !! k = None) ∧
  (∀ entries, entries ≡ₚ map_to_list (alredyChecked (gl r)) →
     rangeExpire entries threshold (alredyChecked (gl r))
     = alredyChecked (gl r')) ∧
  (∀ p rest v,
     alredyChecked (gl r) !! Key p = Some v → v < threshold →
     terminate (world r) = false →
     ∃ evs, trace (rangePastes (p :: rest) r') = trace r ++ EvFetch p :: evs) ∧
  (∀ k v, alredyChecked (gl (pollCycle r)) !! k = Some v →
          now (world (pollCycle r)) - 10 * minute ≤ v).
Proof.
  intros threshold r'. split_and!; try reflexivity.
  - intros k v. unfold r'. rewrite cleanUp_lookup. fold threshold.
    destruct (alredyChecked (gl r) !! k) as [v'|]; [|by split; [|intros []]].
    destruct (v' <? threshold) eqn:Hv.
    + apply Z.ltb_lt in Hv. split; [done|]. intros [[= ->] ?]. lia.
    + apply Z.ltb_ge in Hv. split; [intros [= ->]; by split | by intros []].
  - intros k v Hk Hv. unfold r'. rewrite cleanUp_lookup, Hk. fold threshold.
    apply Z.ltb_lt in Hv. by rewrite Hv.
  - intros entries Hperm. apply map_eq. intros k. unfold r'.
    rewrite cleanUp_lookup, rangeExpire_spec by done. done.
  - intros p rest v Hk Hv Ht.
    assert (Hgone : alredyChecked (gl r') !! Key p = None).
    { unfold r'. rewrite cleanUp_lookup, Hk. fold threshold.
      apply Z.ltb_lt in Hv. by rewrite Hv. }
    rewrite rangePastes_fresh by done.
    match goal with |- context [PollLoop.rangePastes _ _ _ _ rest ?r1] =>
      destruct (rangePastes_trace rest r1) as (evs & -> & _) end.
    cbn [trace]. unfold fetchEvents. rewrite <- !app_assoc. cbn [app].
    eexists. reflexivity.
  - intros k v. unfold PollLoop.pollCycle.
    destruct (fetchPasteList _ _ _ _) as [[[pastes err] g] w].
    set (r1 := PollLoop.rangePastes _ _ _ _ pastes _).
    rewrite (cleanUp_lookup r1 k). cbn [cleanUp world].
    destruct (alredyChecked _ !! k) as [v'|]; [|done].
    destruct (v' <? _) eqn:Hv; [done|]. apply Z.ltb_ge in Hv.
    by intros [= <-].
Qed.

(** C5: when the list fetch of a cycle fails, the failure is sent to the
    error route, no item is fetched in that cycle, the sweep of
    [alredyChecked] is run all the same, and the loop goes on to its next
    round. *)
Theorem pollCycle_list_failure (r : run paste World) err w' :
  listEndpoint (world (idle now sleep r)) = (inr err, w') →
  let r' := pollCycle r in
  trace r' = trace (idle now sleep r)
             ++ [EvFetchPasteList; EvError (runes "fetchPasteList: " ++ err)] ∧
  (∃ evs, trace r' = trace r ++ evs ∧ Forall (λ ev, isFetch ev = false) evs) ∧
  world r' = w' ∧
  (∀ k v, alredyChecked (gl r') !! k = Some v ↔
          alredyChecked (gl r) !! k = Some v ∧ now w' - 10 * minute ≤ v) ∧
  (∀ n, terminate (world r) = false → mainLoop (S n) r = mainLoop n r').
Proof.
  intros Hlist r'.
  assert (Hr' : r' = cleanUp now
                  {| gl := {| alredyChecked := alredyChecked (gl r);
                              lastCheck := now (world (idle now sleep r)) |};
                     world := w';
                     trace := trace (idle now sleep r)
                              ++ [EvFetchPasteList;
                                  EvError (runes "fetchPasteList: " ++ err)] |}).
  { unfold r', PollLoop.pollCycle, fetchPasteList. rewrite Hlist, idle_gl.
    cbn [reportIf PollLoop.rangePastes]. unfold sendError. cbn [gl world trace].
    by rewrite <- app_assoc. }
  split_and!.
  - by rewrite Hr'.
  - destruct (idle_trace r) as (evs & Hevs & Hall).
    exists (evs ++ [EvFetchPasteList; EvError (runes "fetchPasteList: " ++ err)]).
    rewrite Hr'. cbn [cleanUp trace]. rewrite Hevs, <- app_assoc. split; [done|].
    apply Forall_app. split; [done|]. by repeat constructor.
  - by rewrite Hr'.
  - intros k v. rewrite Hr', cleanUp_lookup. cbn [gl world alredyChecked].
    destruct (alredyChecked (gl r) !! k) as [v'|]; [|by split; [|intros []]].
    destruct (v' <? now w' - 10 * minute) eqn:Hv.
    + apply Z.ltb_lt in Hv. split; [done|]. intros [[= ->] ?]. lia.
    + apply Z.ltb_ge in Hv. split; [intros [= ->]; by split | by intros []].
  - intros n Ht. cbn [PollLoop.mainLoop]. by rewrite Ht.
Qed.

End LoopFacts.

(** ** The goroutines *)

Section DeliveryFacts.
Import Delivery.
Context {paste : Type}.

Lemma start_invariant : invariant (@start paste).
Proof. by split. Qed.

Lemma next_invariant (l : label paste) s s' :
  invariant s → next l s = Some s' → invariant s'.
Proof.
  intros [Hp Hs1 Hs2 Hc Hoc Hec Hoj Hor Hej Her Ho He Ht] Hnext.
  destruct s as [mAt oAt eAt sAt term canc oCl eCl sCl pan sO hO sE hE].
  cbn -[runes] in *. subst. unfold next in Hnext. cbn -[runes] in Hnext.
  destruct l; repeat case_match; simplify_eq; cbn -[runes] in *;
    try discriminate; try (specialize (Hoj eq_refl)); try discriminate.
  all: split; cbn -[runes]; try done; try (by intros; simplify_eq).
  all: try (by rewrite app_nil_r in *; simplify_eq).
  all: try (by rewrite <- ?app_assoc; simplify_eq; rewrite ?app_nil_r).
  all: try (by intros Hx; specialize (Hoj Hx)).
  all: try (by intros Hx; specialize (Hej Hx)).
  all: destruct mAt; cbn in *; try done; by specialize (Hoj eq_refl).
Qed.

Lemma exec_invariant (sched : list (label paste)) : ∀ s s',
  invariant s → exec sched s = Some s' → invariant s'.
Proof.
  induction sched as [|l sched IH]; intros s s' Hinv Hexec; cbn in Hexec.
  - by simplify_eq.
  - destruct (next l s) as [s1|] eqn:Hnext; [|done]. cbn in Hexec.
    eapply IH; [|done]. by eapply next_invariant.
Qed.

Lemma reachable_invariant (s : system paste) : reachable s → invariant s.
Proof. intros [sched Hexec]. eapply exec_invariant; [apply start_invariant | done]. Qed.

Lemma exec_app (sched1 sched2 : list (label paste)) s :
  exec (sched1 ++ sched2) s = exec sched1 s ≫= exec sched2.
Proof.
  revert s. induction sched1 as [|l sched1 IH]; intros s; [done|].
  cbn. destruct (next l s); [apply IH | done].
Qed.

(** Below the loop some goroutine can always move, short of the return of
    [main]. *)
Lemma shutdown_progress (s : system paste) :
  invariant s → pastLoop (mainAt s) = true → mainAt s ≠ MReturned →
  ∃ l s', isInterrupt l = false ∧ next l s = Some s'.
Proof.
  intros [Hp Hs1 Hs2 Hc Hoc Hec Hoj Hor Hej Her Ho He Ht] Hpast Hnot.
  destruct s as [mAt oAt eAt sAt term canc oCl eCl sCl pan sO hO sE hE].
  cbn -[runes] in *. subst.
  destruct mAt; try done; cbn in *.
  - exists LMain. eexists. split; [done|]. reflexivity.
  - destruct oAt as [|p|p e|].
    + exists (LOutput None). eexists. split; [done|]. reflexivity.
    + exists (LOutput None). eexists. split; [done|]. reflexivity.
    + destruct eAt as [|e'|].
      * exists (LOutput None). eexists. split; [done|]. reflexivity.
      * exists LError. eexists. split; [done|]. reflexivity.
      * by specialize (Her eq_refl).
    + exists LMain. eexists. split; [done|]. reflexivity.
  - exists LMain. eexists. split; [done|]. reflexivity.
  - destruct eAt as [|e'|].
    + exists LError. eexists. split; [done|].
      unfold next. cbn. by rewrite (Hoj eq_refl).
    + exists LError. eexists. split; [done|]. reflexivity.
    + exists LMain. eexists. split; [done|]. reflexivity.
Qed.

Lemma shutdown_decreases (l : label paste) s s' :
  invariant s → pastLoop (mainAt s) = true → isInterrupt l = false →
  next l s = Some s' →
  pastLoop (mainAt s') = true ∧ (remaining s' < remaining s)%nat.
Proof.
  intros [Hp Hs1 Hs2 Hc Hoc Hec Hoj Hor Hej Her Ho He Ht] Hpast Hl Hnext.
  destruct s as [mAt oAt eAt sAt term canc oCl eCl sCl pan sO hO sE hE].
  cbn -[runes] in *. subst. unfold next in Hnext. cbn -[runes] in Hnext.
  destruct l; try done; repeat case_match; simplify_eq;
    unfold remaining; cbn -[runes Nat.mul] in *; try done;
    try (by specialize (Hoj eq_refl)); split; try done; lia.
Qed.

Lemma shutdown_finishes n : ∀ s : system paste,
  (remaining s < n)%nat → invariant s → pastLoop (mainAt s) = true →
  ∃ sched s', exec sched s = Some s' ∧ mainAt s' = MReturned.
Proof.
  induction n as [|n IH]; intros s Hn Hinv Hpast; [lia|].
  assert (mainAt s = MReturned ∨ mainAt s ≠ MReturned) as [Hret|Hret]
    by (destruct (mainAt s); auto).
  { by exists [], s. }
  destruct (shutdown_progress s Hinv Hpast Hret) as (l & s1 & Hl & Hnext).
  destruct (shutdown_decreases l s s1 Hinv Hpast Hl Hnext) as [Hpast1 Hlt].
  destruct (IH s1) as (sched & s' & Hexec & Hdone);
    [lia | by eapply next_invariant | done |].
  exists (l :: sched), s'. cbn. by rewrite Hnext.
Qed.

Lemma shutdown_bounded (sched : list (label paste)) : ∀ s s',
  invariant s → pastLoop (mainAt s) = true →
  Forall (λ l, isInterrupt l = false) sched →
  exec sched s = Some s' → (length sched + remaining s' ≤ remaining s)%nat.
Proof.
  induction sched as [|l sched IH]; intros s s' Hinv Hpast Hall Hexec.
  - cbn in Hexec. simplify_eq. cbn [length]. lia.
  - apply Forall_cons in Hall as [Hl Hall]. cbn in Hexec.
    destruct (next l s) as [s1|] eqn:Hnext; [|done]. cbn in Hexec.
    destruct (shutdown_decreases l s s1 Hinv Hpast Hl Hnext) as [Hpast1 Hlt].
    pose proof (IH s1 s' (next_invariant _ _ _ Hinv Hnext) Hpast1 Hall Hexec).
    cbn [length]. lia.
Qed.

(** C6: in every state the process can reach nothing has panicked, so no
    goroutine has sent on a closed channel; [chanOutput] is closed only
    after the loop was left; [chanError] is closed only after the output
    worker has returned, having finished every paste it received; when
    [main] returns both workers have returned and have finished everything
    they received.  Once the loop is left, the shutdown can always be
    completed and takes a bounded number of steps. *)
Theorem shutdown_order (s : system paste) :
  reachable s →
  panicked s = false ∧
  (outputClosed s = true → pastLoop (mainAt s) = true) ∧
  (errorClosed s = true →
     outputClosed s = true ∧ outputAt s = OReturned ∧
     handledOutput s = sentOutput s) ∧
  (mainAt s = MReturned →
     outputAt s = OReturned ∧ errorAt s = EReturned ∧
     handledOutput s = sentOutput s ∧ handledErrors s = sentErrors s) ∧
  (∀ l s', next l s = Some s' → panicked s' = false) ∧
  (pastLoop (mainAt s) = true →
     (∃ sched s', exec sched s = Some s' ∧ mainAt s' = MReturned) ∧
     (∀ sched s', Forall (λ l, isInterrupt l = false) sched →
        exec sched s = Some s' → (length sched ≤ remaining s)%nat)).
Proof.
  intros Hreach. pose proof (reachable_invariant s Hreach) as Hinv.
  pose proof Hinv as [Hp Hs1 Hs2 Hc Hoc Hec Hoj Hor Hej Her Ho He Ht].
  split_and!.
  - done.
  - rewrite Hoc. by destruct (mainAt s).
  - rewrite Hec, Hoc. intros Hclosed.
    assert (Hj : afterWaitOutput (mainAt s) = true) by by destruct (mainAt s).
    split_and!; [by destruct (mainAt s) | by apply Hoj |].
    by rewrite Ho, (Hoj Hj), app_nil_r.
  - intros Hret.
    assert (Hj : afterWaitOutput (mainAt s) = true) by by rewrite Hret.
    split_and!; [by apply Hoj | by apply Hej | |].
    + by rewrite Ho, (Hoj Hj), app_nil_r.
    + by rewrite He, (Hej Hret), app_nil_r.
  - intros l s' Hnext. by destruct (next_invariant l s s' Hinv Hnext).
  - intros Hpast. split.
    + by apply (shutdown_finishes (S (remaining s))); [lia|..].
    + intros sched s' Hall Hexec.
      pose proof (shutdown_bounded sched s s' Hinv Hpast Hall Hexec). lia.
Qed.

(** C2 (what the code does): an interrupt sets [terminate] and nothing
    else.  The goroutine behind [chanSignal] never leaves its [range] loop,
    because nothing closes the channel, so the [cancel()] behind the loop is
    not reached; the context is cancelled only by the deferred [cancel()],
    when [main] has returned. *)
Theorem interrupt_leaves_context (s : system paste) :
  reachable s →
  signalAt s = SReceive ∧
  (ctxCancelled s = true ↔ mainAt s = MReturned) ∧
  (∀ s', next LInterrupt s = Some s' →
     terminate s' = true ∧ ctxCancelled s' = ctxCancelled s ∧
     mainAt s' = mainAt s) ∧
  next LSignalClosed s = None.
Proof.
  intros Hreach. destruct (reachable_invariant s Hreach)
    as [Hp Hs1 Hs2 Hc Hoc Hec Hoj Hor Hej Her Ho He Ht].
  split_and!.
  - done.
  - rewrite Hc. by destruct (mainAt s).
  - unfold next. rewrite Hp, Hs1, Hs2. by intros s' [= <-].
  - unfold next. by rewrite Hp, Hs1, Hs2.
Qed.

End DeliveryFacts.

Lemma shutdown_order_witness :
  let s := {| Delivery.mainAt := Delivery.MReturned;
              Delivery.outputAt := Delivery.OReturned;
              Delivery.errorAt := Delivery.EReturned;
              Delivery.signalAt := Delivery.SReceive;
              Delivery.terminate := true; Delivery.ctxCancelled := true;
              Delivery.outputClosed := true; Delivery.errorClosed := true;
              Delivery.signalClosed := false; Delivery.panicked := false;
              Delivery.sentOutput := [7%nat]; Delivery.handledOutput := [7%nat];
              Delivery.sentErrors := [runes "sendPasteMessage: refused"];
              Delivery.handledErrors := [runes "sendPasteMessage: refused"] |} in
  Delivery.reachable s ∧ Delivery.panicked s = false.
Proof.
  intros s.
  assert (Hreach : Delivery.reachable s).
  { exists [Delivery.LSendOutput 7%nat; Delivery.LInterrupt;
            Delivery.LOutput (Some (runes "refused")); Delivery.LLeaveLoop;
            Delivery.LMain; Delivery.LOutput None; Delivery.LError;
            Delivery.LOutput None; Delivery.LMain; Delivery.LMain;
            Delivery.LError; Delivery.LMain].
    vm_compute. reflexivity. }
  split; [exact Hreach|]. apply (shutdown_order s Hreach).
Defined.

Lemma interrupt_leaves_context_witness :
  let s := Delivery.receiveOutput nat 7%nat Delivery.start in
  Delivery.reachable s ∧
  Delivery.next Delivery.LInterrupt s = Some (Delivery.setTerminate s) ∧
  Delivery.ctxCancelled (Delivery.setTerminate s) = false.
Proof.
  intros s.
  assert (Hreach : Delivery.reachable s).
  { exists [Delivery.LSendOutput 7%nat]. reflexivity. }
  split; [exact Hreach|]. split; [reflexivity|].
  destruct (interrupt_leaves_context s Hreach) as (_ & _ & Hint & _).
  destruct (Hint (Delivery.setTerminate s) eq_refl) as (_ & -> & _).
  reflexivity.
Defined.

Section WorkerFacts.
Import Delivery.
Context {paste World : Type}.
Variable sendPasteMessage : paste → World → option (list N) * World.
Variable sendErrorMessage : list N → World → option (list N) * World.

Lemma outputWorker_cons p ps w :
  (outputWorker sendPasteMessage (p :: ps) w).1
  = ActSendPaste p ::
    match (sendPasteMessage p w).1 with
    | Some e => [ActChanError (runes "sendPasteMessage: " ++ e)]
    | None => []
    end ++ (outputWorker sendPasteMessage ps (sendPasteMessage p w).2).1.
Proof.
  cbn [outputWorker]. destruct (sendPasteMessage p w) as [err w1]. cbn [fst snd].
  by destruct (outputWorker sendPasteMessage ps w1).
Qed.

Lemma errorWorker_cons mailonerror err errs w :
  ∃ mail w1,
    (errorWorker sendErrorMessage mailonerror (err :: errs) w).1
    = ActLog err :: mail ++ (errorWorker sendErrorMessage mailonerror errs w1).1 ∧
    Forall (λ a : action paste, isLog a || isSendError a = true) mail ∧
    List.filter isSendError mail = if mailonerror then [ActSendError err] else [].
Proof.
  cbn [errorWorker]. destruct mailonerror.
  - destruct (sendErrorMessage err w) as [err2 w1].
    destruct (errorWorker sendErrorMessage true errs w1) as [acts w2] eqn:Hw.
    eexists _, w1. rewrite Hw. split; [reflexivity|].
    destruct err2; split; by repeat constructor.
  - destruct (errorWorker sendErrorMessage false errs w) as [acts w2] eqn:Hw.
    exists [], w. rewrite Hw. by split.
Qed.


End WorkerFacts.

Lemma rangePastes_skips_cached_witness :
  is_Some (PollLoop.alredyChecked (PollLoop.gl Example.r0)
             !! Example.Key (runes "new")) ∧
  PollLoop.rangePastes Example.Key Example.sleep Example.terminate Example.fetch
    [runes "new"; runes "fresh"] Example.r0
  = PollLoop.rangePastes Example.Key Example.sleep Example.terminate Example.fetch
      [runes "fresh"] Example.r0 ∧
  PollLoop.alredyChecked (PollLoop.gl Example.r0)
    !! Example.Key (runes "fresh") = None ∧
  Example.terminate (PollLoop.world Example.r0) = false ∧
  ∃ err g w,
    Example.fetch (runes "fresh") (PollLoop.gl Example.r0)
      (PollLoop.world Example.r0) = (err, g, w) ∧
    PollLoop.rangePastes Example.Key Example.sleep Example.terminate
      Example.fetch [runes "fresh"] Example.r0
    = PollLoop.rangePastes Example.Key Example.sleep Example.terminate
        Example.fetch []
        {| PollLoop.gl := g;
           PollLoop.world := Example.sleep (1 * PollLoop.second) w;
           PollLoop.trace := PollLoop.trace Example.r0
                             ++ PollLoop.fetchEvents (runes "fresh") err |}.
Proof.
  assert (H1 : is_Some (PollLoop.alredyChecked (PollLoop.gl Example.r0)
                          !! Example.Key (runes "new")))
    by (vm_compute; eauto).
  assert (H2 : PollLoop.alredyChecked (PollLoop.gl Example.r0)
                 !! Example.Key (runes "fresh") = None)
    by (vm_compute; reflexivity).
  assert (H3 : Example.terminate (PollLoop.world Example.r0) = false)
    by reflexivity.
  split; [exact H1|]. split.
  - exact (proj1 (rangePastes_skips_cached Example.Key Example.sleep
                    Example.terminate Example.fetch (runes "new")
                    [runes "fresh"] Example.r0) H1).
  - split; [exact H2|]. split; [exact H3|].
    exact (proj1 (proj2 (rangePastes_skips_cached Example.Key Example.sleep
                           Example.terminate Example.fetch (runes "fresh")
                           [] Example.r0)) H2 H3).
Defined.

Lemma cleanUp_expires_witness :
  PollLoop.alredyChecked (PollLoop.gl Example.r0) !! runes "old" = Some 0%Z ∧
  (0 < Example.now (PollLoop.world Example.r0) - 10 * PollLoop.minute)%Z ∧
  PollLoop.alredyChecked (PollLoop.gl (PollLoop.cleanUp Example.now Example.r0))
    !! runes "old" = None.
Proof.
  assert (H1 : PollLoop.alredyChecked (PollLoop.gl Example.r0) !! runes "old"
               = Some 0%Z) by (vm_compute; reflexivity).
  assert (H2 : (0 < Example.now (PollLoop.world Example.r0)
                    - 10 * PollLoop.minute)%Z) by (vm_compute; reflexivity).
  split; [exact H1|]. split; [exact H2|].
  destruct (cleanUp_expires Example.Key Example.now Example.sleep
              Example.terminate Example.listEndpoint Example.fetch Example.r0)
    as (_ & _ & _ & _ & Hgone & _).
  exact (Hgone (runes "old") 0%Z H1 H2).
Defined.

Lemma pollCycle_list_failure_witness :
  Example.listEndpoint
    (PollLoop.world (PollLoop.idle Example.now Example.sleep Example.r0))
  = (inr (runes "timeout"), 1210 * PollLoop.second)%Z ∧
  PollLoop.trace
    (PollLoop.pollCycle Example.Key Example.now Example.sleep Example.terminate
       Example.listEndpoint Example.fetch Example.r0)
  = PollLoop.trace (PollLoop.idle Example.now Example.sleep Example.r0)
    ++ [PollLoop.EvFetchPasteList;
        PollLoop.EvError (runes "fetchPasteList: " ++ runes "timeout")].
Proof.
  assert (H1 : Example.listEndpoint
                 (PollLoop.world (PollLoop.idle Example.now Example.sleep Example.r0))
               = (inr (runes "timeout"), 1210 * PollLoop.second)%Z)
    by (vm_compute; reflexivity).
  split; [exact H1|].
  apply (pollCycle_list_failure Example.Key Example.now Example.sleep
           Example.terminate Example.listEndpoint Example.fetch Example.r0
           (runes "timeout") (1210 * PollLoop.second)%Z H1).
Defined.

(* ===================================================================== *)
(** * Further properties of the code *)
(* ===================================================================== *)

(** ** Trimming *)

Section TrimFacts.

Lemma trimLeft_spec s :
  ∃ a, s = a ++ trimLeft s ∧ Forall (λ c, isSpace c = true) a ∧
       ∀ c, head (trimLeft s) = Some c → isSpace c = false.
Proof.
  induction s as [|c s (a & Hs & Ha & Hh)].
  - exists []. by repeat split.
  - cbn [trimLeft]. destruct (isSpace c) eqn:Hc.
    + exists (c :: a). split_and!; [by rewrite Hs at 1 | by constructor | done].
    + exists []. split_and!; [done | constructor |]. by intros ? [= <-].
Qed.

Lemma trimLeft_fixed s :
  (∀ c, head s = Some c → isSpace c = false) → trimLeft s = s.
Proof.
  destruct s as [|c s]; [done|]. intros Hh. cbn. by rewrite (Hh c eq_refl).
Qed.

Lemma last_rev {A} (l : list A) : last (rev l) = head l.
Proof. destruct l as [|x l]; [done|]. cbn. by rewrite last_snoc. Qed.

Lemma head_rev {A} (l : list A) : head (rev l) = last l.
Proof. by rewrite <- last_rev, rev_involutive. Qed.

Lemma head_app_nonempty {A} (l1 l2 : list A) x :
  head l1 = Some x → head (l1 ++ l2) = Some x.
Proof. by destruct l1. Qed.

(** [strings.TrimSpace] takes white space off both ends and nothing else. *)
Lemma TrimSpace_spec s :
  ∃ a b, s = a ++ TrimSpace s ++ b ∧
         Forall (λ c, isSpace c = true) a ∧ Forall (λ c, isSpace c = true) b ∧
         trimmed (TrimSpace s).
Proof.
  unfold TrimSpace, trimRight.
  destruct (trimLeft_spec s) as (a & Hs & Ha & Hh).
  destruct (trimLeft_spec (rev (trimLeft s))) as (b & Hr & Hb & Hl).
  set (t := trimLeft (rev (trimLeft s))) in *.
  assert (Ht : trimLeft s = rev t ++ rev b).
  { rewrite <- rev_app_distr, <- Hr. by rewrite rev_involutive. }
  exists a, (rev b). split_and!.
  - by rewrite <- Ht.
  - done.
  - by apply Forall_rev.
  - split.
    + intros c Hc. apply Hh. rewrite Ht. by apply head_app_nonempty.
    + intros c Hc. apply Hl. by rewrite <- last_rev.
Qed.

Lemma TrimSpace_fixed s : trimmed s → TrimSpace s = s.
Proof.
  intros [Hh Hl]. unfold TrimSpace, trimRight.
  rewrite (trimLeft_fixed s Hh), trimLeft_fixed, rev_involutive; [done|].
  intros c. rewrite head_rev. apply Hl.
Qed.

End TrimFacts.

(** ** More on checkKeywords *)

Section HitFacts.
Context `{CaseFolding}.

Lemma hitFor_compiled m body K :
  compiled m → hitFor m body K = m !! K ≫= keywordHit body.
Proof.
  intros Hm. unfold hitFor, checkKeywords.
  rewrite (rangeKeywords_spec m) by done. cbn. apply lookup_omap.
Qed.

Lemma keywordHit_sound body k v line :
  regexp v = Some (lineWithKeyword k) →
  keywordHit body v = Some line →
  checkExceptions line (exceptions v) = false ∧ trimmed line ∧
  (noNL k → ∃ L, List.find (hasKeyword k) (splitLines body) = Some L ∧
                 line = TrimSpace L).
Proof.
  intros Hre. unfold keywordHit. rewrite Hre. cbn [mbind option_bind].
  destruct (FindStringSubmatch (lineWithKeyword k) body) as [s|] eqn:Hs;
    cbn [mbind option_bind]; [|done].
  destruct (s !! 1%nat) as [s1|] eqn:Hs1; cbn [mbind option_bind]; [|done].
  destruct (checkExceptions (TrimSpace s1) (exceptions v)) eqn:Hex; [done|].
  intros [= <-]. split_and!; [done| |].
  - by destruct (TrimSpace_spec s1) as (a & b & _ & _ & _ & Ht).
  - intros Hk. rewrite FindStringSubmatch_lineWithKeyword in Hs by done.
    destruct (List.find _ _) as [L|]; [|done]. cbn in Hs.
    injection Hs as <-. cbn in Hs1. injection Hs1 as <-. by exists L.
Qed.

(** X1: when every configured keyword is within the limit of the parser,
    the loop of [main] over the keywords builds a table, and with that table
    [checkKeywords] never panics on any body; its status is true exactly
    when it records a hit; it records hits only under configured keywords;
    the order in which Go hands out the entries of the table makes no
    difference to the result. *)
Theorem checkKeywords_consistent (config : configuration) :
  allFit (Keywords config) = true →
  ∃ keywordsRegex,
    compileKeywords (Keywords config) ∅ = Some keywordsRegex ∧
    ∀ body, ∃ status found,
      checkKeywords keywordsRegex body = Some (status, found) ∧
      (status = true ↔ found ≠ ∅) ∧
      (∀ K, is_Some (found !! K) → ∃ k, k ∈ Keywords config ∧ Keyword k = K) ∧
      (∀ entries, entries ≡ₚ map_to_list keywordsRegex →
         rangeKeywords entries body (false, ∅) = Some (status, found)).
Proof.
  intros Hfit.
  destruct (compileKeywords_fit (Keywords config) Hfit) as (m & Hm & Hcomp).
  exists m. split; [done|]. intros body.
  exists (existsb (isHit body) (map_to_list m)), (omap (keywordHit body) m).
  split_and!.
  - by apply rangeKeywords_spec.
  - by apply existsb_isHit.
  - intros K [line HK]. apply lookup_omap_Some in HK as (v & _ & HK).
    destruct (compileKeywords_lookup _ ∅ m K v Hm HK) as [Hin|(k & ? & ? & _)];
      [by rewrite lookup_empty in Hin | by exists k].
  - intros entries Hperm. rewrite (rangeKeywords_spec m) by done.
    do 2 f_equal. apply eq_true_iff_eq. by rewrite !(existsb_isHit m).
Qed.

(** X2: whatever [checkKeywords] records for a keyword is free of white
    space at both ends and contains none of the exceptions of that keyword;
    for a keyword without line feed it is the first line of the body that
    has the keyword, trimmed. *)
Theorem checkKeywords_hits_sound (config : configuration)
    (keywordsRegex : gmap (list N) keywordRegexType)
    (body : gostring) (status : bool) (found : gmap (list N) (list N))
    (K line : gostring) :
  compileKeywords (Keywords config) ∅ = Some keywordsRegex →
  checkKeywords keywordsRegex body = Some (status, found) →
  found !! K = Some line →
  ∃ v, keywordsRegex !! K = Some v ∧
       checkExceptions line (exceptions v) = false ∧
       trimmed line ∧
       (noNL K → ∃ L, List.find (hasKeyword K) (splitLines body) = Some L ∧
                      line = TrimSpace L).
Proof.
  intros Hc Hrun HK.
  pose proof (compileKeywords_compiled (Keywords config) ∅ keywordsRegex
                compiled_empty Hc) as Hcomp.
  unfold checkKeywords in Hrun. rewrite (rangeKeywords_spec keywordsRegex) in Hrun by done.
  injection Hrun as _ <-.
  apply lookup_omap_Some in HK as (v & Hhit & Hv).
  exists v. split; [done|]. by apply (keywordHit_sound body K v line (Hcomp K v Hv)).
Qed.

Lemma matchStar_none cc k :
  (∀ p t, isWordAt p = false → Forall (λ c, isWordChar c = false) t →
          k p t = None) →
  ∀ s p, isWordAt p = false → Forall (λ c, isWordChar c = false) s →
         matchStar cc p s k = None.
Proof.
  intros Hk. induction s as [|c s IH]; intros p Hp Hs; cbn [matchStar].
  - by apply Hk.
  - pose proof Hs as Hs'. apply Forall_cons in Hs' as [Hc Hs'].
    destruct (classMatches cc c); [|by apply Hk].
    rewrite IH by done. by apply Hk.
Qed.

Lemma searchFrom_no_word kw : ∀ s p,
  isWordAt p = false → Forall (λ c, isWordChar c = false) s →
  searchFrom (lineWithKeyword kw) p s = None.
Proof.
  assert (Hat : ∀ s p, isWordAt p = false →
                       Forall (λ c, isWordChar c = false) s →
                       matchAt (lineWithKeyword kw) p s = None).
  { intros s p Hp Hs. unfold matchAt, lineWithKeyword, concat.
    cbn [matchRe app foldr]. destruct (atBeginLine p); [|done].
    apply matchStar_none; [|done..].
    intros q t Hq Ht. unfold atWordBoundary. rewrite Hq.
    destruct t as [|c t]; [done|]. apply Forall_cons in Ht as [Hc _].
    cbn. by rewrite Hc. }
  induction s as [|c s IH]; intros p Hp Hs.
  - rewrite searchFrom_eq, Hat by done. done.
  - rewrite searchFrom_eq, Hat by done.
    apply Forall_cons in Hs as [Hc Hs]. by apply IH.
Qed.

(** X3: a body without any letter, digit or underscore, the empty body
    among them, gives no hit whatever keywords the loop of [main] has
    compiled: the pattern of every keyword asks for a word boundary, and
    such a body has none. *)
Theorem checkKeywords_no_word_char (config : configuration) (body : gostring) :
  allFit (Keywords config) = true →
  Forall (λ c, isWordChar c = false) body →
  ∃ keywordsRegex,
    compileKeywords (Keywords config) ∅ = Some keywordsRegex ∧
    checkKeywords keywordsRegex body = Some (false, ∅).
Proof.
  intros Hfit Hbody.
  destruct (compileKeywords_fit (Keywords config) Hfit) as (m & Hm & Hcomp).
  exists m. split; [done|].
  assert (Hnone : ∀ k v, m !! k = Some v → keywordHit body v = None).
  { intros k v Hv. unfold keywordHit, FindStringSubmatch.
    rewrite (Hcomp k v Hv). cbn [mbind option_bind].
    by rewrite searchFrom_no_word. }
  assert (Hempty : omap (keywordHit body) m = ∅).
  { apply map_eq. intros k. rewrite lookup_omap, lookup_empty.
    destruct (m !! k) as [v|] eqn:Hv; [|done]. cbn. by eapply Hnone. }
  unfold checkKeywords. rewrite (rangeKeywords_spec m) by done.
  rewrite Hempty. do 2 f_equal.
  destruct (existsb _ _) eqn:Hex; [|done].
  apply (existsb_isHit m) in Hex; [|done]. by rewrite Hempty in Hex.
Qed.

End HitFacts.

Lemma checkKeywords_hits_sound_witness :
  ∃ v, ({[ runes "password" :=
             {| regexp := Some (lineWithKeyword (runes "password"));
                exceptions := [runes "testpassword"] |} ]}
          : gmap (list N) keywordRegexType) !! runes "password" = Some v ∧
       checkExceptions (runes "password: hunter2") (exceptions v) = false ∧
       trimmed (runes "password: hunter2").
Proof.
  destruct (checkKeywords_hits_sound
              {| Keywords := [passwordKeyword]; Mailonerror := false |}
              {[ runes "password" :=
                   {| regexp := Some (lineWithKeyword (runes "password"));
                      exceptions := [runes "testpassword"] |} ]}
              (runes "  password: hunter2 " ++ [NL]) true
              {[ runes "password" := runes "password: hunter2" ]}
              (runes "password") (runes "password: hunter2"))
    as (v & Hv & Hex & Ht & _).
  - vm_compute. reflexivity.
  - vm_compute. reflexivity.
  - vm_compute. reflexivity.
  - exists v. by split_and!.
Defined.

Lemma checkKeywords_no_word_char_witness :
  allFit [passwordKeyword] = true ∧
  Forall (λ c, isWordChar c = false) (runes "--- ***" ++ [NL] ++ runes "  ...") ∧
  ∃ keywordsRegex,
    compileKeywords [passwordKeyword] ∅ = Some keywordsRegex ∧
    checkKeywords keywordsRegex (runes "--- ***" ++ [NL] ++ runes "  ...")
    = Some (false, ∅).
Proof.
  assert (Hb : Forall (λ c, isWordChar c = false)
                 (runes "--- ***" ++ [NL] ++ runes "  ..."))
    by (repeat constructor).
  split; [reflexivity|]. split; [exact Hb|].
  exact (checkKeywords_no_word_char
           {| Keywords := [passwordKeyword]; Mailonerror := false |} _ eq_refl Hb).
Defined.

Lemma checkKeywords_consistent_witness :
  allFit [passwordKeyword] = true ∧
  ∃ keywordsRegex,
    compileKeywords [passwordKeyword] ∅ = Some keywordsRegex ∧
    ∃ status found,
      checkKeywords keywordsRegex (runes "password: hunter2") = Some (status, found) ∧
      (status = true ↔ found ≠ ∅).
Proof.
  split; [reflexivity|].
  destruct (checkKeywords_consistent
              {| Keywords := [passwordKeyword]; Mailonerror := false |} eq_refl)
    as (m & Hm & Hall).
  exists m. split; [exact Hm|].
  destruct (Hall (runes "password: hunter2")) as (status & found & Hrun & Hiff & _).
  exists status, found. split; [exact Hrun | exact Hiff].
Defined.

(** ** Bodies of several parts, case, and odd keywords *)

Section LineFacts.
Context `{CaseFolding}.

Lemma splitLines_nonempty body : splitLines body ≠ [].
Proof.
  destruct body as [|c body]; [done|]. cbn.
  destruct (c =? NL); [done|]. by destruct (splitLines body).
Qed.

Lemma splitLines_app b1 b2 :
  splitLines (b1 ++ NL :: b2) = splitLines b1 ++ splitLines b2.
Proof.
  induction b1 as [|c b1 IH]; [done|]. cbn [app splitLines].
  rewrite IH. destruct (c =? NL); [done|].
  pose proof (splitLines_nonempty b1). by destruct (splitLines b1).
Qed.

Lemma find_app_existsb {A} (P : A → bool) l1 l2 :
  List.find P (l1 ++ l2)
  = if existsb P l1 then List.find P l1 else List.find P l2.
Proof.
  induction l1 as [|x l1 IH]; [done|]. cbn. by destruct (P x).
Qed.

Lemma keywordHit_app body1 body2 k v :
  regexp v = Some (lineWithKeyword k) → noNL k →
  keywordHit (body1 ++ NL :: body2) v
  = if existsb (hasKeyword k) (splitLines body1)
    then keywordHit body1 v else keywordHit body2 v.
Proof.
  intros Hre Hk. unfold keywordHit. rewrite Hre. cbn [mbind option_bind].
  rewrite !FindStringSubmatch_lineWithKeyword by done.
  rewrite splitLines_app, find_app_existsb.
  by destruct (existsb _ _).
Qed.

(** X4: for a body made of two parts with a line feed between them, and a
    keyword without line feed: when some line of the first part has the
    keyword, [checkKeywords] records for it what it records on the first
    part alone, also when that is nothing; otherwise it records what it
    records on the second part alone. *)
Theorem checkKeywords_two_parts (config : configuration)
    (keywordsRegex : gmap (list N) keywordRegexType)
    (K body1 body2 : gostring) :
  compileKeywords (Keywords config) ∅ = Some keywordsRegex →
  noNL K →
  hitFor keywordsRegex (body1 ++ NL :: body2) K
  = if existsb (hasKeyword K) (splitLines body1)
    then hitFor keywordsRegex body1 K
    else hitFor keywordsRegex body2 K.
Proof.
  intros Hc HK.
  pose proof (compileKeywords_compiled (Keywords config) ∅ keywordsRegex
                compiled_empty Hc) as Hcomp.
  rewrite !hitFor_compiled by done.
  destruct (keywordsRegex !! K) as [v|] eqn:Hv; cbn.
  - by apply keywordHit_app; [apply Hcomp|].
  - by destruct (existsb _ _).
Qed.

Lemma delimitedFrom_empty : ∀ L p,
  delimitedFrom [] p L = isWordAt p || existsb isWordChar L.
Proof.
  induction L as [|c L IH]; intros p; cbn [delimitedFrom existsb].
  - unfold delimitedAt, atWordBoundary. cbn. by destruct (isWordAt p).
  - rewrite IH. unfold delimitedAt, atWordBoundary. cbn.
    by destruct (isWordAt p), (isWordChar c).
Qed.

(** X7: the empty keyword is accepted by the configuration and by the
    compiler; it hits the first line of the body that has a letter, a digit
    or an underscore, and captures that line whole. *)
Theorem empty_keyword_first_word_line (body : gostring) :
  MustCompile (keywordPattern []) = Some (lineWithKeyword []) ∧
  FindStringSubmatch (lineWithKeyword []) body
  = (λ L, [L; L]) <$> List.find (existsb isWordChar) (splitLines body).
Proof.
  split; [by apply MustCompile_fits|].
  rewrite FindStringSubmatch_lineWithKeyword by constructor.
  f_equal. induction (splitLines body) as [|L Ls IH]; [done|].
  cbn. unfold hasKeyword at 1. rewrite delimitedFrom_empty. cbn.
  by rewrite IH.
Qed.

Lemma foldPrefix_too_long k : ∀ s,
  (length s < length k)%nat → foldPrefix k s = false.
Proof.
  induction k as [|c k IH]; intros s Hs; [cbn in Hs; lia|].
  destruct s as [|r s]; [done|]. cbn in *. rewrite IH by lia.
  apply andb_false_r.
Qed.

Lemma delimitedFrom_too_long k : ∀ s p,
  (length s < length k)%nat → delimitedFrom k p s = false.
Proof.
  induction s as [|r s IH]; intros p Hs; cbn [delimitedFrom].
  - unfold delimitedAt. rewrite foldPrefix_too_long by done.
    by rewrite andb_false_r.
  - unfold delimitedAt. rewrite foldPrefix_too_long by done.
    rewrite andb_false_r, IH; [done|]. cbn in Hs. lia.
Qed.

(** X6: a keyword whose first rune is not a letter, a digit or an
    underscore does not hit a body that consists of the keyword alone: the
    word boundary in front of the keyword needs a word character there. *)
Theorem nonword_keyword_misses_itself (c : rune) (K : gostring) :
  isWordChar c = false → noNL (c :: K) →
  FindStringSubmatch (lineWithKeyword (c :: K)) (c :: K) = None.
Proof.
  intros Hc HK. rewrite FindStringSubmatch_lineWithKeyword by done.
  assert (Hsplit : splitLines (c :: K) = [c :: K]).
  { destruct (splitLines_first (c :: K)) as (L & rest & HL & HnL & Hrest & Hs).
    destruct rest as [|r rest].
    - rewrite app_nil_r in HL. by rewrite Hs, <- HL.
    - cbn in Hrest. apply N.eqb_eq in Hrest as ->.
      assert (Hin : NL ∈ c :: K) by (rewrite HL; set_solver).
      unfold noNL in HK. rewrite Forall_forall in HK. by destruct (HK NL Hin). }
  rewrite Hsplit. cbn [List.find]. unfold hasKeyword. cbn [delimitedFrom].
  unfold delimitedAt at 1, atWordBoundary at 1. cbn. rewrite Hc. cbn.
  rewrite delimitedFrom_too_long by (cbn; lia). done.
Qed.

End LineFacts.

Lemma checkKeywords_two_parts_witness :
  noNL (runes "password") ∧
  hitFor {[ runes "password" :=
              {| regexp := Some (lineWithKeyword (runes "password"));
                 exceptions := [runes "testpassword"] |} ]}
    (runes "password: testpassword" ++ NL :: runes "password: hunter2")
    (runes "password")
  = None.
Proof.
  assert (Hk : noNL (runes "password")) by (repeat constructor; done).
  split; [exact Hk|].
  assert (Hc : compileKeywords
                 (Keywords {| Keywords := [passwordKeyword];
                              Mailonerror := false |}) ∅
               = Some {[ runes "password" :=
                           {| regexp := Some (lineWithKeyword (runes "password"));
                              exceptions := [runes "testpassword"] |} ]})
    by (vm_compute; reflexivity).
  pose proof (checkKeywords_two_parts _ _ (runes "password")
                (runes "password: testpassword") (runes "password: hunter2")
                Hc Hk) as Htwo.
  etransitivity; [exact Htwo|]. vm_compute. reflexivity.
Defined.

Lemma nonword_keyword_misses_itself_witness :
  isWordChar 64 = false ∧ noNL (runes "@example.com") ∧
  FindStringSubmatch (lineWithKeyword (runes "@example.com"))
    (runes "@example.com") = None.
Proof.
  assert (H1 : isWordChar 64 = false) by reflexivity.
  assert (H2 : noNL (64 :: runes "example.com")) by (repeat constructor; done).
  split; [exact H1|]. split; [exact H2|].
  exact (nonword_keyword_misses_itself 64 (runes "example.com") H1 H2).
Defined.

Section ExtensionalFacts.
Context `{CaseFolding}.

Lemma matchStar_ext cc k k' :
  (∀ p t, k p t = k' p t) → ∀ s p, matchStar cc p s k = matchStar cc p s k'.
Proof.
  intros Hk. induction s as [|c s IH]; intros p; cbn [matchStar]; [apply Hk|].
  by rewrite IH, Hk.
Qed.

(** The pattern of a keyword looks at the keyword only through the prefixes
    it accepts and through its length. *)
Lemma matchAt_keyword_ext k1 k2 :
  (∀ s, foldPrefix k1 s = foldPrefix k2 s) → length k1 = length k2 →
  ∀ prev s, matchAt (lineWithKeyword k1) prev s = matchAt (lineWithKeyword k2) prev s.
Proof.
  intros Hpre Hlen prev s. unfold matchAt, lineWithKeyword, concat.
  cbn [matchRe app foldr]. destruct (atBeginLine prev); [|done].
  rewrite !foldr_app. cbn [foldr]. apply matchStar_ext. intros p t.
  destruct (atWordBoundary p t); [|done].
  erewrite (matchRe_literals k1); last first.
  { intros q u. cbn [matchRe]. apply (matchStar_prev _ _) with (p' := None).
    intros q1 q2 u'. reflexivity. }
  erewrite (matchRe_literals k2); last first.
  { intros q u. cbn [matchRe]. apply (matchStar_prev _ _) with (p' := None).
    intros q1 q2 u'. reflexivity. }
  by rewrite Hpre, Hlen.
Qed.

Lemma searchFrom_ext re1 re2 :
  (∀ p s, matchAt re1 p s = matchAt re2 p s) →
  ∀ s p, searchFrom re1 p s = searchFrom re2 p s.
Proof.
  intros Hat. induction s as [|c s IH]; intros p.
  - by rewrite !(searchFrom_eq _ p []), Hat.
  - by rewrite !(searchFrom_eq _ p (c :: s)), Hat, IH.
Qed.

Lemma FindStringSubmatch_keyword_ext k1 k2 body :
  (∀ s, foldPrefix k1 s = foldPrefix k2 s) → length k1 = length k2 →
  FindStringSubmatch (lineWithKeyword k1) body
  = FindStringSubmatch (lineWithKeyword k2) body.
Proof.
  intros Hpre Hlen. unfold FindStringSubmatch.
  rewrite (searchFrom_ext _ _ (matchAt_keyword_ext k1 k2 Hpre Hlen)).
  by rewrite !numSubexp_lineWithKeyword.
Qed.

Lemma checkExceptions_app s a b :
  checkExceptions s (a ++ b) = checkExceptions s a || checkExceptions s b.
Proof.
  induction a as [|x a IH]; [done|]. cbn [app checkExceptions].
  by destruct (Contains s x).
Qed.

Lemma checkExceptions_empty_string s excs :
  [] ∈ excs → checkExceptions s excs = true.
Proof.
  intros Hin. apply checkExceptions_spec. by exists [], [], s.
Qed.

(** X8: [checkExceptions] over two lists put together is the disjunction of
    the two checks, and an empty string among the exceptions suppresses
    every line; so a keyword that is configured with an empty exception is
    never reported, whatever the body. *)
Theorem empty_exception_silences (config : configuration)
    (keywordsRegex : gmap (list N) keywordRegexType)
    (K : gostring) (v : keywordRegexType) :
  compileKeywords (Keywords config) ∅ = Some keywordsRegex →
  keywordsRegex !! K = Some v →
  [] ∈ exceptions v →
  (∀ body, hitFor keywordsRegex body K = None) ∧
  (∀ s a b, checkExceptions s (a ++ b)
            = checkExceptions s a || checkExceptions s b).
Proof.
  intros Hc HK Hin. split; [|apply checkExceptions_app]. intros body.
  pose proof (compileKeywords_compiled (Keywords config) ∅ keywordsRegex
                compiled_empty Hc) as Hcomp.
  rewrite hitFor_compiled, HK by done. cbn. unfold keywordHit.
  destruct (regexp v) as [re|]; cbn; [|done].
  destruct (FindStringSubmatch re body) as [s|]; cbn; [|done].
  destruct (s !! 1%nat) as [s1|]; cbn; [|done].
  by rewrite checkExceptions_empty_string.
Qed.

Lemma last_cons_default {A} (x : A) l :
  last (x :: l) = Some (default x (last l)).
Proof. rewrite last_cons. by destruct (last l). Qed.

Lemma compileKeywords_lookup_last ks : ∀ m0 m,
  compileKeywords ks m0 = Some m →
  ∀ K, m !! K
       = match lastEntry K ks with
         | Some k => Some {| regexp := Some (lineWithKeyword K);
                             exceptions := Exceptions k |}
         | None => m0 !! K
         end.
Proof.
  induction ks as [|k ks IH]; intros m0 m Hc K.
  - cbn [compileKeywords] in Hc. by simplify_eq.
  - rewrite compileKeywords_cons in Hc.
    destruct (fits (Keyword k)); [|done].
    rewrite (IH _ _ Hc K).
    unfold lastEntry. rewrite filter_cons. case_decide as HkK.
    + rewrite last_cons. destruct (last (filter _ ks)); [done|].
      subst K. by rewrite lookup_insert_eq.
    + destruct (last (filter _ ks)); [done|]. by rewrite lookup_insert_ne.
Qed.

End ExtensionalFacts.

(** X9: when every configured keyword is within the limit of the parser,
    the table that the loop of [main] builds has an entry exactly for the
    keywords of the configuration; when a keyword is configured more than
    once, the exceptions of its last entry are the ones that count and
    those of the earlier entries are dropped. *)
Theorem compileKeywords_last_entry (config : configuration) :
  allFit (Keywords config) = true →
  ∃ keywordsRegex,
    compileKeywords (Keywords config) ∅ = Some keywordsRegex ∧
    ∀ K, keywordsRegex !! K
         = (λ k, {| regexp := Some (lineWithKeyword K);
                    exceptions := Exceptions k |})
           <$> lastEntry K (Keywords config).
Proof.
  intros Hfit.
  apply (compileKeywords_is_Some (Keywords config) ∅) in Hfit as [m Hm].
  exists m. split; [done|]. intros K.
  rewrite (compileKeywords_lookup_last (Keywords config) ∅ m Hm K).
  destruct (lastEntry K (Keywords config)); [done|]. apply lookup_empty.
Qed.

Lemma compileKeywords_last_entry_witness :
  allFit [{| Keyword := runes "password"; Exceptions := [runes "old"] |};
          passwordKeyword] = true ∧
  ∃ keywordsRegex,
    compileKeywords [{| Keyword := runes "password"; Exceptions := [runes "old"] |};
                     passwordKeyword] ∅ = Some keywordsRegex ∧
    keywordsRegex !! runes "password"
    = Some {| regexp := Some (lineWithKeyword (runes "password"));
              exceptions := [runes "testpassword"] |}.
Proof.
  split; [reflexivity|].
  destruct (compileKeywords_last_entry
              {| Keywords := [{| Keyword := runes "password";
                                 Exceptions := [runes "old"] |};
                              passwordKeyword];
                 Mailonerror := false |} eq_refl)
    as (m & Hm & Hlook).
  exists m. split; [exact Hm|]. rewrite Hlook. vm_compute. reflexivity.
Defined.

Lemma toLowerASCII_NL c : toLowerASCII c = NL ↔ c = NL.
Proof.
  unfold toLowerASCII, inRange, NL.
  destruct (65 <=? c) eqn:E1, (c <=? 90) eqn:E2; cbn [andb];
    rewrite ?N.leb_le, ?N.leb_gt in *; lia.
Qed.

Lemma foldEq_lower `{CaseFolding} c c' r :
  (∀ c r, foldTable c r = foldTable (toLowerASCII c) r) →
  toLowerASCII c = toLowerASCII c' →
  foldEq c r = foldEq c' r.
Proof.
  intros Hfold Hl. unfold foldEq.
  assert (Hnl : (c =? NL) = (c' =? NL)).
  { apply eq_true_iff_eq. rewrite !N.eqb_eq.
    rewrite <- (toLowerASCII_NL c), <- (toLowerASCII_NL c'). by rewrite Hl. }
  destruct (N.eqb_spec r NL) as [->|Hr].
  - rewrite !orb_true_r. exact Hnl.
  - rewrite !orb_false_r, <- Hnl. destruct (N.eqb_spec c NL) as [->|Hc].
    + symmetry in Hnl. apply N.eqb_eq in Hnl as ->. done.
    + by rewrite (Hfold c), (Hfold c'), Hl.
Qed.

Lemma foldPrefix_lower `{CaseFolding} k1 : ∀ k2 s,
  (∀ c r, foldTable c r = foldTable (toLowerASCII c) r) →
  map toLowerASCII k1 = map toLowerASCII k2 →
  foldPrefix k1 s = foldPrefix k2 s.
Proof.
  induction k1 as [|c k1 IH]; intros [|c' k2] s Hfold Hk; try done.
  cbn in Hk. injection Hk as Hc Hk. destruct s as [|r s]; [done|].
  cbn [foldPrefix]. by rewrite (foldEq_lower c c' r Hfold Hc), (IH k2 s Hfold Hk).
Qed.

Lemma foldKey_lower c : foldKey (toLowerASCII c) = foldKey c.
Proof.
  unfold foldKey, toLowerASCII, inRange.
  destruct (N.leb_spec 65 c), (N.leb_spec c 90); cbn [andb];
    repeat match goal with
    | |- context [?a =? ?b] => destruct (N.eqb_spec a b)
    | |- context [?a <=? ?b] => destruct (N.leb_spec a b); cbn [andb]
    end; try reflexivity; lia.
Qed.

(** X5: the letter case of a configured keyword is irrelevant.  Under any
    folding table that treats an ASCII capital as it treats its small
    letter, as the table of Unicode does, two keywords that differ only in
    the case of ASCII letters either both fail to compile or compile to
    patterns that report the same line, or none, on every body. *)
Theorem keyword_case_irrelevant `{CaseFolding} (K1 K2 body : gostring) :
  (∀ c r, foldTable c r = foldTable (toLowerASCII c) r) →
  map toLowerASCII K1 = map toLowerASCII K2 →
  (re ← MustCompile (keywordPattern K1); FindStringSubmatch re body)
  = (re ← MustCompile (keywordPattern K2); FindStringSubmatch re body).
Proof.
  intros Hfold HK. unfold MustCompile. rewrite !Compile_keywordPattern.
  assert (Hlen : length K1 = length K2).
  { apply (f_equal length) in HK. by rewrite !length_map in HK. }
  unfold fits. rewrite Hlen.
  destruct (N.of_nat (length K2) <=? maxRunes); [|done].
  cbn [mbind option_bind].
  apply FindStringSubmatch_keyword_ext; [|done].
  intros s. by apply foldPrefix_lower.
Qed.

Lemma empty_exception_silences_witness :
  ([] : list N) ∈ [runes "x"; []] ∧
  hitFor {[ runes "password" :=
              {| regexp := Some (lineWithKeyword (runes "password"));
                 exceptions := [runes "x"; []] |} ]}
    (runes "password: hunter2") (runes "password") = None.
Proof.
  assert (Hin : ([] : list N) ∈ [runes "x"; []]) by (right; left).
  split; [exact Hin|].
  assert (Hc : compileKeywords
                 (Keywords {| Keywords := [{| Keyword := runes "password";
                                              Exceptions := [runes "x"; []] |}];
                              Mailonerror := false |}) ∅
               = Some {[ runes "password" :=
                           {| regexp := Some (lineWithKeyword (runes "password"));
                              exceptions := [runes "x"; []] |} ]})
    by (vm_compute; reflexivity).
  assert (Hk : ({[ runes "password" :=
                     {| regexp := Some (lineWithKeyword (runes "password"));
                        exceptions := [runes "x"; []] |} ]}
                  : gmap (list N) keywordRegexType) !! runes "password"
               = Some {| regexp := Some (lineWithKeyword (runes "password"));
                         exceptions := [runes "x"; []] |})
    by (vm_compute; reflexivity).
  exact (proj1 (empty_exception_silences _ _ _ _ Hc Hk Hin)
           (runes "password: hunter2")).
Defined.

Lemma keyword_case_irrelevant_witness :
  (re ← MustCompile (keywordPattern (runes "PassWord"));
   @FindStringSubmatch asciiFold re (runes "my password"))
  = (re ← MustCompile (keywordPattern (runes "password"));
     @FindStringSubmatch asciiFold re (runes "my password")).
Proof.
  apply (@keyword_case_irrelevant asciiFold).
  - intros c r. cbn [foldTable asciiFold]. by rewrite foldKey_lower.
  - vm_compute. reflexivity.
Defined.

(** X13: the keywords do not influence each other.  What [checkKeywords]
    records for a keyword depends on the body and on the last entry the
    configuration has for that keyword, and on nothing else in the
    configuration. *)
Theorem checkKeywords_independent `{CaseFolding}
    (config1 config2 : configuration)
    (table1 table2 : gmap (list N) keywordRegexType)
    (K body : gostring) :
  compileKeywords (Keywords config1) ∅ = Some table1 →
  compileKeywords (Keywords config2) ∅ = Some table2 →
  lastEntry K (Keywords config1) = lastEntry K (Keywords config2) →
  hitFor table1 body K = hitFor table2 body K.
Proof.
  intros H1 H2 Hlast.
  pose proof (compileKeywords_compiled (Keywords config1) ∅ table1
                compiled_empty H1) as Hc1.
  pose proof (compileKeywords_compiled (Keywords config2) ∅ table2
                compiled_empty H2) as Hc2.
  rewrite !hitFor_compiled by done.
  rewrite (compileKeywords_lookup_last (Keywords config1) ∅ table1 H1 K).
  rewrite (compileKeywords_lookup_last (Keywords config2) ∅ table2 H2 K).
  by rewrite Hlast, !lookup_empty.
Qed.

Lemma checkKeywords_independent_witness :
  hitFor {[ runes "password" :=
              {| regexp := Some (lineWithKeyword (runes "password"));
                 exceptions := [runes "testpassword"] |} ]}
    (runes "password: hunter2") (runes "password")
  = hitFor {[ runes "password" :=
                {| regexp := Some (lineWithKeyword (runes "password"));
                   exceptions := [runes "testpassword"] |};
              runes "hunter" :=
                {| regexp := Some (lineWithKeyword (runes "hunter"));
                   exceptions := [] |} ]}
      (runes "password: hunter2") (runes "password").
Proof.
  apply (checkKeywords_independent
           {| Keywords := [passwordKeyword]; Mailonerror := false |}
           {| Keywords := [{| Keyword := runes "hunter"; Exceptions := [] |};
                           passwordKeyword];
              Mailonerror := true |}).
  - vm_compute. reflexivity.
  - vm_compute. reflexivity.
  - vm_compute. reflexivity.
Defined.

(** ** The start of main *)

Section StartupFacts.
Import Startup.
Context {File : Type}.
Variable osOpen : list N → File + list N.
Variable decode : File → configuration + list N.

Lemma lastEntry_is_Some K ks :
  is_Some (lastEntry K ks) ↔ ∃ k, k ∈ ks ∧ Keyword k = K.
Proof.
  unfold lastEntry. split.
  - intros [k Hk]. exists k. apply last_Some_elem_of in Hk.
    by apply list_elem_of_filter in Hk as [? ?].
  - intros (k & Hin & Hk).
    assert (Hf : k ∈ filter (λ k, Keyword k = K) ks)
      by by apply list_elem_of_filter.
    destruct (filter _ ks) as [|x l] eqn:Hl; [by apply elem_of_nil in Hf|].
    rewrite last_cons_default. eauto.
Qed.

(** X10: [main] gets to its poll loop exactly when a configuration file is
    named, opens and decodes and every keyword of the configuration is
    within the limit of the parser; it panics exactly when the file is
    named, opens and decodes and some keyword is beyond that limit.  The
    table it starts with has an entry for every configured keyword and for
    nothing else, and [checkKeywords] on it never panics. *)
Theorem startup_outcomes (configFile : list N) :
  (startup osOpen decode configFile = Panicked ↔
   configFile ≠ [] ∧
   ∃ file config, osOpen configFile = inl file ∧ decode file = inl config ∧
                  allFit (Keywords config) = false) ∧
  (∀ config keywordsRegex,
     startup osOpen decode configFile = Polling config keywordsRegex →
     configFile ≠ [] ∧
     (∃ file, osOpen configFile = inl file ∧ decode file = inl config) ∧
     allFit (Keywords config) = true ∧
     (∀ K, is_Some (keywordsRegex !! K) ↔
           ∃ k, k ∈ Keywords config ∧ Keyword k = K) ∧
     (∀ (F : CaseFolding) body, is_Some (checkKeywords keywordsRegex body))) ∧
  (∀ file config,
     configFile ≠ [] → osOpen configFile = inl file → decode file = inl config →
     allFit (Keywords config) = true →
     ∃ keywordsRegex,
       startup osOpen decode configFile = Polling config keywordsRegex).
Proof.
  unfold startup. split_and!.
  - split.
    + destruct configFile as [|c cf]; [done|].
      destruct (osOpen (c :: cf)) as [file|err] eqn:Ho; [|done].
      destruct (decode file) as [config|err] eqn:Hd; [|done].
      destruct (compileKeywords (Keywords config) ∅) as [m|] eqn:Hc; [done|].
      intros _. split; [done|]. exists file, config. split_and!; [done..|].
      destruct (allFit (Keywords config)) eqn:Hfit; [|done].
      apply (compileKeywords_is_Some (Keywords config) ∅) in Hfit as [m Hm].
      congruence.
    + intros (Hcf & file & config & Ho & Hd & Hfit).
      destruct configFile as [|c cf]; [done|]. rewrite Ho, Hd.
      destruct (compileKeywords (Keywords config) ∅) as [m|] eqn:Hc; [|done].
      assert (Hs : is_Some (compileKeywords (Keywords config) ∅)) by (rewrite Hc; eauto).
      apply compileKeywords_is_Some in Hs. congruence.
  - intros config m Hstart.
    destruct configFile as [|c cf]; [done|].
    destruct (osOpen (c :: cf)) as [file|err] eqn:Ho; [|done].
    destruct (decode file) as [config'|err] eqn:Hd; [|done].
    destruct (compileKeywords (Keywords config') ∅) as [m'|] eqn:Hc; [|done].
    injection Hstart as -> ->. split_and!.
    + done.
    + by exists file.
    + apply (compileKeywords_is_Some (Keywords config) ∅). rewrite Hc. eauto.
    + intros K.
      rewrite (compileKeywords_lookup_last (Keywords config) ∅ m Hc K).
      rewrite <- lastEntry_is_Some.
      destruct (lastEntry K (Keywords config)); [done|].
      by rewrite lookup_empty.
    + intros F body.
      pose proof (compileKeywords_compiled (Keywords config) ∅ m
                    compiled_empty Hc) as Hcomp.
      unfold checkKeywords. by rewrite (rangeKeywords_spec m).
  - intros file config Hcf Ho Hd Hfit.
    destruct configFile as [|c cf]; [done|]. rewrite Ho, Hd.
    apply (compileKeywords_is_Some (Keywords config) ∅) in Hfit as [m ->].
    by exists m.
Qed.

End StartupFacts.

(** ** More on the poll loop *)

Section LoopFacts2.
Import PollLoop.
Local Open Scope Z_scope.

Context {paste World : Type}.
Variable Key : paste → list N.
Variable now : World → Z.
Variable sleep : Z → World → World.
Variable terminate : World → bool.
Variable listEndpoint : World → (list paste + list N) * World.
Variable fetch : paste → globals → World → option (list N) * globals * World.

Local Abbreviation rangePastes := (PollLoop.rangePastes Key sleep terminate fetch).
Local Abbreviation pollCycle :=
  (PollLoop.pollCycle Key now sleep terminate listEndpoint fetch).
Local Abbreviation mainLoop :=
  (PollLoop.mainLoop Key now sleep terminate listEndpoint fetch).

Lemma rangePastes_terminated ps (r : run paste World) :
  terminate (world r) = true → rangePastes ps r = r.
Proof. intros Ht. destruct ps; cbn [PollLoop.rangePastes]; by rewrite ?Ht. Qed.

(** X11: running the item loop over a list in two pieces, the second piece
    from the state the first one leaves, is the same as running it over
    the whole list; this stays true when the loop is left early because
    [terminate] is seen. *)
Theorem rangePastes_app ps1 ps2 (r : run paste World) :
  rangePastes (ps1 ++ ps2) r = rangePastes ps2 (rangePastes ps1 r).
Proof.
  revert r. induction ps1 as [|p ps1 IH]; intros r; [done|].
  destruct (terminate (world r)) eqn:Ht.
  - by rewrite !(rangePastes_terminated _ r Ht).
  - destruct (alredyChecked (gl r) !! Key p) as [v|] eqn:Hc.
    + cbn [app]. rewrite !(rangePastes_cached Key sleep terminate fetch p _ r v Ht Hc).
      apply IH.
    + cbn [app]. rewrite !(rangePastes_fresh Key sleep terminate fetch p _ r Ht Hc).
      apply IH.
Qed.

Lemma pairedFrom_fetchEvents (p : paste) err evs :
  pairedFrom Between (fetchEvents p err ++ evs) = pairedFrom Between evs.
Proof.
  unfold fetchEvents. destruct err; cbn; by rewrite Z.eqb_refl.
Qed.

Lemma pairedFrom_no_list_fetch (evs : list (event paste)) : ∀ st,
  pairedFrom st evs = true → List.filter isListFetch evs = [].
Proof.
  induction evs as [|ev evs IH]; intros st Hp; [done|].
  destruct st, ev; cbn in Hp; try done; cbn;
    try (apply andb_true_iff in Hp as [_ Hp]); by eapply IH.
Qed.

(** X12: the events of a run of the item loop come in groups: a fetch, at
    most one error report, one sleep of one second; nothing else happens,
    and there are at most as many fetches as listed items. *)
Theorem rangePastes_paired ps (r : run paste World) :
  ∃ evs,
    trace (rangePastes ps r) = trace r ++ evs ∧
    pairedFrom Between evs = true ∧
    (length (List.filter isFetch evs) ≤ length ps)%nat.
Proof.
  revert r. induction ps as [|p ps IH]; intros r.
  - exists []. cbn. by rewrite app_nil_r.
  - destruct (terminate (world r)) eqn:Ht.
    { exists []. rewrite (rangePastes_terminated _ r Ht), app_nil_r.
      split_and!; [done..|]. cbn. lia. }
    destruct (alredyChecked (gl r) !! Key p) as [v|] eqn:Hc.
    + rewrite (rangePastes_cached Key sleep terminate fetch p ps r v Ht Hc).
      destruct (IH r) as (evs & Htr & Hp & Hn).
      exists evs. split_and!; [done..|]. cbn [length]. lia.
    + rewrite (rangePastes_fresh Key sleep terminate fetch p ps r Ht Hc).
      match goal with |- context [PollLoop.rangePastes _ _ _ _ ps ?r'] =>
        destruct (IH r') as (evs & Htr & Hp & Hn) end.
      cbn [trace] in Htr.
      exists (fetchEvents p (fetch p (gl r) (world r)).1.1 ++ evs).
      rewrite Htr, <- app_assoc. split_and!; [done| |].
      * by rewrite pairedFrom_fetchEvents.
      * rewrite List.filter_app, length_app. cbn [length].
        assert (length (List.filter isFetch
                          (fetchEvents p (fetch p (gl r) (world r)).1.1)) = 1%nat)
          as -> by (unfold fetchEvents; by destruct (fetch p _ _).1.1).
        lia.
Qed.

(** X14: when [time.Sleep] lets at least the asked time go by, the list is
    asked for no earlier than one minute after [lastCheck]; waiting changes
    neither [alredyChecked] nor [lastCheck]. *)
Theorem idle_waits_a_minute (r : run paste World) :
  (∀ d w, 0 < d → now w + d ≤ now (sleep d w)) →
  lastCheck (gl r) + 1 * minute ≤ now (world (idle now sleep r)) ∧
  gl (idle now sleep r) = gl r.
Proof.
  intros Hsleep. split; [|apply idle_gl]. unfold idle.
  destruct (0 <? lastCheck (gl r) + 1 * minute - now (world r)) eqn:Hd.
  - apply Z.ltb_lt in Hd. cbn [timeSleep world].
    pose proof (Hsleep _ (world r) Hd). lia.
  - apply Z.ltb_ge in Hd. lia.
Qed.

Lemma cleanUp_eq (r1 r2 : run paste World) :
  world r1 = world r2 → trace r1 = trace r2 →
  lastCheck (gl r1) = lastCheck (gl r2) →
  (∀ k, alredyChecked (gl r1) !! k = alredyChecked (gl r2) !! k) →
  r1 = r2.
Proof.
  destruct r1 as [[m1 l1] w1 t1], r2 as [[m2 l2] w2 t2]. cbn.
  intros -> -> -> Hm. do 2 f_equal. by apply map_eq.
Qed.

(** X15: the sweep done twice is the sweep done once, and a sweep over a
    cache in which nothing is older than ten minutes changes nothing. *)
Theorem cleanUp_idempotent (r : run paste World) :
  cleanUp now (cleanUp now r) = cleanUp now r ∧
  ((∀ k v, alredyChecked (gl r) !! k = Some v →
           now (world r) - 10 * minute ≤ v) →
   cleanUp now r = r).
Proof.
  split.
  - apply cleanUp_eq; try done. intros k. rewrite !cleanUp_lookup.
    cbn [cleanUp world].
    destruct (alredyChecked (gl r) !! k) as [v|]; [|done].
    destruct (v <? _) eqn:Hv; [done|]. by rewrite Hv.
  - intros Hfresh. apply cleanUp_eq; try done. intros k.
    rewrite cleanUp_lookup.
    destruct (alredyChecked (gl r) !! k) as [v|] eqn:Hk; [|done].
    apply Hfresh in Hk. apply Z.ltb_ge in Hk. by rewrite Hk.
Qed.

Lemma pollCycle_one_list_fetch (r : run paste World) :
  ∃ evs, trace (pollCycle r) = trace r ++ evs ∧
         length (List.filter isListFetch evs) = 1%nat.
Proof.
  unfold PollLoop.pollCycle.
  destruct (fetchPasteList _ _ _ _) as [[[pastes err] g] w].
  cbn [cleanUp trace].
  match goal with |- context [PollLoop.rangePastes _ _ _ _ pastes ?r'] =>
    destruct (rangePastes_paired pastes r') as (evs & -> & Hp & _) end.
  apply pairedFrom_no_list_fetch in Hp.
  assert (Hidle : ∃ e0, trace (idle now sleep r) = trace r ++ e0 ∧
                        List.filter isListFetch e0 = []).
  { unfold idle. destruct (0 <? _).
    - by exists [EvSleep (lastCheck (gl r) + 1 * minute - now (world r))].
    - exists []. by rewrite app_nil_r. }
  destruct Hidle as (e0 & He0 & Hf0).
  destruct err as [e|]; cbn [reportIf sendError trace]; rewrite He0.
  - eexists. rewrite <- !app_assoc. split; [reflexivity|].
    rewrite !List.filter_app, Hf0, Hp. done.
  - eexists. rewrite <- !app_assoc. split; [reflexivity|].
    rewrite !List.filter_app, Hf0, Hp. done.
Qed.

(** X16: the endless loop asks for the list once in every round and never
    more often; it is left only when [terminate] is read as set, and no
    failure of a fetch makes it stop: after [n] rounds without seeing
    [terminate] it has asked for the list [n] times. *)
Theorem mainLoop_rounds n : ∀ r : run paste World,
  ∃ evs,
    trace (mainLoop n r).1 = trace r ++ evs ∧
    (length (List.filter isListFetch evs) ≤ n)%nat ∧
    ((mainLoop n r).2 = true → terminate (world (mainLoop n r).1) = true) ∧
    ((mainLoop n r).2 = false → length (List.filter isListFetch evs) = n).
Proof.
  induction n as [|n IH]; intros r.
  - exists []. cbn. rewrite app_nil_r. by split_and!.
  - cbn [PollLoop.mainLoop]. destruct (terminate (world r)) eqn:Ht.
    + exists []. cbn. rewrite app_nil_r. split_and!; [done| lia | done | done].
    + destruct (pollCycle_one_list_fetch r) as (e1 & He1 & Hn1).
      destruct (IH (pollCycle r)) as (evs & Hevs & Hle & Hleft & Hall).
      exists (e1 ++ evs). rewrite Hevs, He1, <- app_assoc.
      rewrite List.filter_app, length_app, Hn1.
      split_and!; [done | lia | done |]. intros Hf. rewrite (Hall Hf). lia.
Qed.

End LoopFacts2.

Lemma idle_waits_a_minute_witness :
  (∀ d w, (0 < d → Example.now w + d ≤ Example.now (Example.sleep d w))%Z) ∧
  (PollLoop.lastCheck (PollLoop.gl Example.r0) + 1 * PollLoop.minute
   ≤ Example.now
       (PollLoop.world (PollLoop.idle Example.now Example.sleep Example.r0)))%Z.
Proof.
  assert (Hs : ∀ d w, (0 < d → Example.now w + d
                               ≤ Example.now (Example.sleep d w))%Z).
  { intros d w _. unfold Example.now, Example.sleep. lia. }
  split; [exact Hs|].
  exact (proj1 (idle_waits_a_minute Example.now Example.sleep Example.r0 Hs)).
Defined.

(** ** More on the goroutines *)

Section ProcessFacts.
Import Delivery.
Context {paste : Type}.

Lemma next_undisturbed (l : label paste) s s' :
  isInterrupt l = false → undisturbed s → next l s = Some s' → undisturbed s'.
Proof.
  intros Hl (Hm & Ht & Hc & Ho & He & Hs & Hp & Hsig & Hout & Herr) Hnext.
  destruct s as [mAt oAt eAt sAt term canc oCl eCl sCl pan sO hO sE hE].
  cbn -[runes] in *. subst. unfold next in Hnext. cbn -[runes] in Hnext.
  destruct l; try done; repeat case_match; simplify_eq;
    by repeat split.
Qed.

(** X17: without an interrupt the process never shuts down.  Along every
    schedule in which no interrupt arrives, [main] stays in its loop,
    [terminate] stays unset, no channel is closed, the context is not
    cancelled, nothing panics and both workers keep running. *)
Theorem no_interrupt_no_shutdown (sched : list (label paste)) (s : system paste) :
  Forall (λ l, isInterrupt l = false) sched →
  exec sched start = Some s →
  mainAt s = MLoop ∧ terminate s = false ∧ ctxCancelled s = false ∧
  outputClosed s = false ∧ errorClosed s = false ∧ panicked s = false ∧
  outputAt s ≠ OReturned ∧ errorAt s ≠ EReturned.
Proof.
  intros Hall Hexec.
  assert (Hgen : ∀ sched s0 s1, Forall (λ l : label paste, isInterrupt l = false) sched →
                   undisturbed s0 → exec sched s0 = Some s1 → undisturbed s1).
  { clear. induction sched as [|l sched IH]; intros s0 s1 Hall Hu Hexec.
    - cbn in Hexec. by simplify_eq.
    - apply Forall_cons in Hall as [Hl Hall]. cbn in Hexec.
      destruct (next l s0) as [s'|] eqn:Hnext; [|done]. cbn in Hexec.
      eapply IH; [done| |done]. by eapply next_undisturbed. }
  destruct (Hgen sched start s Hall) as (? & ? & ? & ? & ? & ? & ? & ? & ? & ?);
    [by repeat split | done | by split_and!].
Qed.

(** X18: the workers lose nothing and keep the order.  In every reachable
    state what a worker has received is what it has finished, in the same
    order, followed by the one item it is working on, if any. *)
Theorem routes_in_order (s : system paste) :
  reachable s →
  sentOutput s = handledOutput s ++ inFlightOutput (outputAt s) ∧
  sentErrors s = handledErrors s ++ inFlightError (errorAt s) ∧
  (length (inFlightOutput (outputAt s)) ≤ 1)%nat ∧
  (length (inFlightError (errorAt s)) ≤ 1)%nat.
Proof.
  intros Hreach. destruct (reachable_invariant s Hreach)
    as [Hp Hs1 Hs2 Hc Hoc Hec Hoj Hor Hej Her Ho He Ht].
  split_and!; [done..| |].
  - destruct (outputAt s); cbn; lia.
  - destruct (errorAt s); cbn; lia.
Qed.

Lemma next_monotone (l : label paste) s s' :
  next l s = Some s' →
  (terminate s = true → terminate s' = true) ∧
  (ctxCancelled s = true → ctxCancelled s' = true) ∧
  (outputClosed s = true → outputClosed s' = true) ∧
  (errorClosed s = true → errorClosed s' = true) ∧
  sentOutput s `prefix_of` sentOutput s' ∧
  handledOutput s `prefix_of` handledOutput s' ∧
  sentErrors s `prefix_of` sentErrors s' ∧
  handledErrors s `prefix_of` handledErrors s'.
Proof.
  intros Hnext.
  destruct s as [mAt oAt eAt sAt term canc oCl eCl sCl pan sO hO sE hE].
  unfold next in Hnext. cbn -[runes] in Hnext.
  destruct l; repeat case_match; simplify_eq; cbn -[runes];
    split_and!; try done; by apply prefix_app_r.
Qed.

(** X19: nothing is ever taken back.  Along every schedule [terminate],
    once set, stays set; a closed channel stays closed; a cancelled context
    stays cancelled; what was received and what was finished only grows at
    its end.  A second interrupt changes nothing. *)
Theorem exec_monotone (sched : list (label paste)) (s s' : system paste) :
  exec sched s = Some s' →
  (terminate s = true → terminate s' = true) ∧
  (ctxCancelled s = true → ctxCancelled s' = true) ∧
  (outputClosed s = true → outputClosed s' = true) ∧
  (errorClosed s = true → errorClosed s' = true) ∧
  sentOutput s `prefix_of` sentOutput s' ∧
  handledOutput s `prefix_of` handledOutput s' ∧
  sentErrors s `prefix_of` sentErrors s' ∧
  handledErrors s `prefix_of` handledErrors s' ∧
  (∀ s1 s2, next LInterrupt s = Some s1 → next LInterrupt s1 = Some s2 →
            s2 = s1).
Proof.
  intros Hexec.
  assert (Hint : ∀ s1 s2, next LInterrupt s = Some s1 →
                          next LInterrupt s1 = Some s2 → s2 = s1).
  { clear. intros s1 s2 H1 H2.
    destruct s as [mAt oAt eAt sAt term canc oCl eCl sCl pan sO hO sE hE].
    unfold next in H1. cbn in H1. repeat case_match; simplify_eq.
    unfold next in H2. cbn in H2. by simplify_eq. }
  revert s Hexec Hint. induction sched as [|l sched IH]; intros s Hexec Hint.
  - cbn in Hexec. simplify_eq. by split_and!.
  - cbn in Hexec. destruct (next l s) as [s1|] eqn:Hnext; [|done].
    cbn in Hexec.
    destruct (next_monotone l s s1 Hnext)
      as (H1 & H2 & H3 & H4 & H5 & H6 & H7 & H8).
    assert (Hint1 : ∀ a b, next LInterrupt s1 = Some a →
                           next LInterrupt a = Some b → b = a).
    { clear. intros a b Ha Hb.
      destruct s1 as [mAt oAt eAt sAt term canc oCl eCl sCl pan sO hO sE hE].
      unfold next in Ha. cbn in Ha. repeat case_match; simplify_eq.
      unfold next in Hb. cbn in Hb. by simplify_eq. }
    destruct (IH s1 Hexec Hint1)
      as (I1 & I2 & I3 & I4 & I5 & I6 & I7 & I8 & _).
    split_and!; [auto | auto | auto | auto | by etrans | by etrans
                | by etrans | by etrans | done].
Qed.

End ProcessFacts.

Lemma no_interrupt_no_shutdown_witness :
  let sched := [Delivery.LSendOutput 7%nat;
                Delivery.LOutput (Some (runes "refused"));
                Delivery.LOutput None; Delivery.LError] in
  Forall (λ l, Delivery.isInterrupt l = false) sched ∧
  (∃ s, Delivery.exec sched Delivery.start = Some s ∧
        Delivery.mainAt s = Delivery.MLoop ∧ Delivery.terminate s = false).
Proof.
  intros sched.
  assert (Hall : Forall (λ l : Delivery.label nat, Delivery.isInterrupt l = false) sched)
    by (repeat constructor).
  split; [exact Hall|].
  destruct (Delivery.exec sched Delivery.start) as [s|] eqn:Hexec;
    [|by vm_compute in Hexec].
  exists s. split; [reflexivity|].
  destruct (no_interrupt_no_shutdown sched s Hall Hexec) as (Hm & Ht & _).
  by split.
Defined.

Lemma routes_in_order_witness :
  let s := Delivery.receiveOutput nat 7%nat Delivery.start in
  Delivery.reachable s ∧
  Delivery.sentOutput s
  = Delivery.handledOutput s ++ Delivery.inFlightOutput (Delivery.outputAt s).
Proof.
  intros s.
  assert (Hreach : Delivery.reachable s).
  { exists [Delivery.LSendOutput 7%nat]. reflexivity. }
  split; [exact Hreach|]. apply (routes_in_order s Hreach).
Defined.

Lemma exec_monotone_witness :
  let s := Delivery.setTerminate (@Delivery.start nat) in
  let s' := Delivery.setMain nat Delivery.MCloseOutput s in
  Delivery.exec [Delivery.LLeaveLoop] s = Some s' ∧
  Delivery.terminate s = true ∧ Delivery.terminate s' = true.
Proof.
  intros s s'.
  assert (Hexec : Delivery.exec [Delivery.LLeaveLoop] s = Some s') by reflexivity.
  split; [exact Hexec|]. split; [reflexivity|].
  by apply (exec_monotone [Delivery.LLeaveLoop] s s' Hexec).
Defined.
